(** * CProperty / CUnknownProperty: serialization and change notification

    Shallow embedding of [Source/csav/csystem/CPropertyBase.hpp].

    The header uses three pieces of the C++ standard library whose
    behaviour decides what the code does: [std::istream] / [std::ostream]
    (tellg, seekg, read, write and the iostate flags), [std::vector<char>]
    (resize) and [std::set<CPropertyListener*>].  They are modelled first,
    following the C++17 library clauses, then the classes of the header. *)

From stdpp Require Import base gmap sets list sorting strings.
From Stdlib Require Import ZArith Strings.Byte Lia.

(** ** Exceptions

    A call either returns a value or leaves through an exception; the
    state reached is reported in both cases. *)

Inductive outcome (A : Type) : Type :=
| Returns (a : A)
| Throws.
Arguments Returns {A} a.
Arguments Throws {A}.

(** ** [std::ios_base::iostate] *)

Module ios.

Record iostate : Type := mk_iostate {
  eofbit : bool;
  failbit : bool;
  badbit : bool
}.

Definition goodbit : iostate := mk_iostate false false false.

Definition good (s : iostate) : bool :=
  negb (eofbit s || failbit s || badbit s).

(** [fail()] is true when failbit or badbit is set. *)
Definition fail (s : iostate) : bool := failbit s || badbit s.

Definition set_failbit (s : iostate) : iostate :=
  mk_iostate (eofbit s) true (badbit s).

Definition set_badbit (s : iostate) : iostate :=
  mk_iostate (eofbit s) (failbit s) true.

Definition set_fail_eof (s : iostate) : iostate :=
  mk_iostate true true (badbit s).

Definition clear_eofbit (s : iostate) : iostate :=
  mk_iostate false (failbit s) (badbit s).

Inductive seekdir : Type := beg | cur | end_.

End ios.

(** ** [std::streambuf], input side

    The get area is kept as the bytes before the get pointer and the
    bytes from the get pointer to the end of the sequence.  Two device
    faults are modelled, the two of the spec's taxonomy: a device that
    cannot seek ([sb_seekable = false]: [seekoff] and [seekpos] keep the
    default behaviour of returning [pos_type(-1)]), and a device that
    stops delivering bytes at an absolute offset before the end it
    reports ([sb_bad_from = Some f]), which gives a short read. *)

Module streambuf.

Record t : Type := mk {
  sb_consumed : list byte;
  sb_pending : list byte;
  sb_seekable : bool;
  sb_bad_from : option nat
}.

Definition extent (sb : t) : nat :=
  length (sb_consumed sb) + length (sb_pending sb).

(** Move the get pointer to absolute offset [n]. *)
Definition reposition (n : nat) (sb : t) : t :=
  let all := sb_consumed sb ++ sb_pending sb in
  mk (take n all) (drop n all) (sb_seekable sb) (sb_bad_from sb).

Definition pubseekpos (p : Z) (sb : t) : Z * t :=
  if sb_seekable sb && (0 <=? p)%Z && (p <=? Z.of_nat (extent sb))%Z
  then (p, reposition (Z.to_nat p) sb)
  else ((-1)%Z, sb).

Definition pubseekoff (off : Z) (dir : ios.seekdir) (sb : t) : Z * t :=
  let base :=
    match dir with
    | ios.beg => 0%Z
    | ios.cur => Z.of_nat (length (sb_consumed sb))
    | ios.end_ => Z.of_nat (extent sb)
    end in
  pubseekpos (base + off) sb.

(** Number of bytes the device can still deliver from the get pointer. *)
Definition deliverable (sb : t) : nat :=
  match sb_bad_from sb with
  | None => length (sb_pending sb)
  | Some f => length (sb_pending sb) `min` (f - length (sb_consumed sb))
  end.

Definition sgetn (n : nat) (sb : t) : list byte * t :=
  let k := n `min` deliverable sb in
  (take k (sb_pending sb),
   mk (sb_consumed sb ++ take k (sb_pending sb)) (drop k (sb_pending sb))
      (sb_seekable sb) (sb_bad_from sb)).

End streambuf.

(** ** [std::istream]: the unformatted input functions the header calls *)

Module istream.

Record t : Type := mk {
  rdbuf : streambuf.t;
  rdstate : ios.iostate
}.

Definition setstate (f : ios.iostate -> ios.iostate) (s : t) : t :=
  mk (rdbuf s) (f (rdstate s)).

Definition good (s : t) : bool := ios.good (rdstate s).
Definition fail (s : t) : bool := ios.fail (rdstate s).

(** [sentry(is, noskipws = true)]: when the stream is not good, failbit
    is set and the operation is abandoned. *)
Definition sentry (s : t) : bool * t :=
  if good s then (true, s) else (false, setstate ios.set_failbit s).

(** [tellg()]: after the sentry, [pos_type(-1)] when [fail()], otherwise
    [rdbuf()->pubseekoff(0, cur, in)].  A failing [pubseekoff] does not
    touch the state flags. *)
Definition tellg (s : t) : Z * t :=
  let '(_, s1) := sentry s in
  if fail s1 then ((-1)%Z, s1)
  else
    let '(p, sb) := streambuf.pubseekoff 0 ios.cur (rdbuf s1) in
    (p, mk sb (rdstate s1)).

(** [seekg(pos)]: clears eofbit, then after the sentry, unless [fail()],
    [rdbuf()->pubseekpos(pos, in)]; failbit on failure. *)
Definition seekg (pos : Z) (s : t) : t :=
  let s0 := setstate ios.clear_eofbit s in
  let '(_, s1) := sentry s0 in
  if fail s1 then s1
  else
    let '(p, sb) := streambuf.pubseekpos pos (rdbuf s1) in
    if (p =? -1)%Z then setstate ios.set_failbit (mk sb (rdstate s1))
    else mk sb (rdstate s1).

(** [seekg(off, dir)]: the same through [pubseekoff]. *)
Definition seekg_off (off : Z) (dir : ios.seekdir) (s : t) : t :=
  let s0 := setstate ios.clear_eofbit s in
  let '(_, s1) := sentry s0 in
  if fail s1 then s1
  else
    let '(p, sb) := streambuf.pubseekoff off dir (rdbuf s1) in
    if (p =? -1)%Z then setstate ios.set_failbit (mk sb (rdstate s1))
    else mk sb (rdstate s1).

(** [read(s, n)]: after the sentry, extracts [n] bytes; when the end of
    the sequence (or a device fault) comes first, sets failbit and eofbit.
    Returns the bytes stored at the front of the destination buffer. *)
Definition read (n : nat) (s : t) : list byte * t :=
  let '(ok, s1) := sentry s in
  if ok then
    let '(got, sb) := streambuf.sgetn n (rdbuf s1) in
    let s2 := mk sb (rdstate s1) in
    (got, if length got <? n then setstate ios.set_fail_eof s2 else s2)
  else ([], s1).

End istream.

(** ** [std::ostream::write]

    [os_data] is what the device has accepted so far; [os_capacity] is
    the number of bytes it accepts before a write fault ([None]: no
    limit). *)

Module ostream.

Record t : Type := mk {
  os_data : list byte;
  os_capacity : option nat;
  rdstate : ios.iostate
}.

Definition good (s : t) : bool := ios.good (rdstate s).

Definition room (s : t) : option nat :=
  match os_capacity s with
  | None => None
  | Some c => Some (c - length (os_data s))
  end.

(** [sputn(s, n)]: the device takes as many bytes as it has room for. *)
Definition sputn (buf : list byte) (s : t) : nat * t :=
  let k :=
    match room s with
    | None => length buf
    | Some r => length buf `min` r
    end in
  (k, mk (os_data s ++ take k buf) (os_capacity s) (rdstate s)).

(** [write(s, n)]: after the sentry, inserts the [n] bytes; badbit when
    the insertion fails.  On a stream that is not good nothing is
    written. *)
Definition write (buf : list byte) (s : t) : t :=
  if good s then
    let '(k, s1) := sputn buf s in
    if k <? length buf
    then mk (os_data s1) (os_capacity s1) (ios.set_badbit (rdstate s1))
    else s1
  else mk (os_data s) (os_capacity s) (ios.set_failbit (rdstate s)).

End ostream.

(** ** [std::vector<char>] *)

Module vector.

(** [max_size()] of a [std::vector<char>] on a 64-bit target. *)
Definition max_size : Z := 2 ^ 63 - 1.

(** [resize(n)]: truncates, or appends value-initialised chars; throws
    [std::length_error] beyond [max_size()] and then leaves the vector
    as it was. *)
Definition resize (n : Z) (v : list byte) : option (list byte) :=
  if (max_size <? n)%Z then None
  else Some (take (Z.to_nat n) v ++ replicate (Z.to_nat n - length v) x00).

(** Storing [got] through [data()] overwrites the front of the vector. *)
Definition store (got : list byte) (v : list byte) : list byte :=
  got ++ drop (length got) v.

End vector.

(** [(size_t)] of a [std::streamoff]: conversion modulo 2^64. *)
Definition to_size_t (z : Z) : Z := (z mod 2 ^ 64)%Z.

(** ** [std::set<CPropertyListener*>]

    A listener is known to the property by its address only.  The set is
    a [gset]; iterating a [std::set] visits the addresses in increasing
    order. *)

Abbreviation listener_ptr := N (only parsing).

Definition set_iteration (s : gset listener_ptr) : list listener_ptr :=
  merge_sort N.le (elements s).

(** ** The header: enumerations *)

Module EPropertyKind.

Inductive t : Type :=
| None | Unknown | Bool | Integer | Float | Double | Combo
| Array | DynArray | Handle | Object | TweakDBID | CName | NodeRef.

End EPropertyKind.

Inductive EPropertyEvent : Type :=
| data_modified.

(** ** [class CProperty]

    [m_property_kind] and [m_is_skippable_in_ser] are private,
    [m_listeners] is protected; [derived] holds the members a subclass
    adds.  [m_is_skippable_in_ser] has the default member initialiser
    [true] and the constructor starts with no listener. *)

Record CProperty (D : Type) : Type := mk_CProperty {
  m_property_kind : EPropertyKind.t;
  m_is_skippable_in_ser : bool;
  m_listeners : gset listener_ptr;
  derived : D
}.
Arguments mk_CProperty {D} _ _ _ _.
Arguments m_property_kind {D} _.
Arguments m_is_skippable_in_ser {D} _.
Arguments m_listeners {D} _.
Arguments derived {D} _.

Definition CProperty_ctor {D : Type} (kind : EPropertyKind.t) (d : D) : CProperty D :=
  mk_CProperty kind true ∅ d.

Definition kind {D : Type} (p : CProperty D) : EPropertyKind.t :=
  m_property_kind p.

Definition is_skippable_in_serialization {D : Type} (p : CProperty D) : bool :=
  m_is_skippable_in_ser p.

(** [add_listener] and [remove_listener]: const member functions that
    insert into, and erase from, [m_listeners] through a const_cast. *)

Definition add_listener {D : Type} (listener : listener_ptr) (p : CProperty D) : CProperty D :=
  mk_CProperty (m_property_kind p) (m_is_skippable_in_ser p)
    ({[listener]} ∪ m_listeners p) (derived p).

Definition remove_listener {D : Type} (listener : listener_ptr) (p : CProperty D) : CProperty D :=
  mk_CProperty (m_property_kind p) (m_is_skippable_in_ser p)
    (m_listeners p ∖ {[listener]}) (derived p).

(** ** Listeners

    [CPropertyListener::on_cproperty_event] is pure virtual and receives a
    [shared_ptr<const CProperty>].  Through it a callback can read the
    property and can call the two const member functions that change it,
    [add_listener] and [remove_listener]; a callback is modelled as the list
    of such calls it makes, chosen from the property it is shown and the
    event.  A callback that re-enters a mutating operation of the same
    property is outside the model (the spec makes that a caller
    obligation), and the node is taken to be owned by a [shared_ptr], as
    the [shared_from_this()] of the loop requires. *)

Inductive listener_call : Type :=
| call_add_listener (l : listener_ptr)
| call_remove_listener (l : listener_ptr).

Definition run_listener_call {D : Type} (p : CProperty D) (c : listener_call) : CProperty D :=
  match c with
  | call_add_listener l => add_listener l p
  | call_remove_listener l => remove_listener l p
  end.

(** One entry of the trace of callbacks: which listener was called, with
    which event, and what [prop->is_skippable_in_serialization()] returned
    inside that callback. *)
Record delivery : Type := mk_delivery {
  d_listener : listener_ptr;
  d_event : EPropertyEvent;
  d_skippable_seen : bool
}.

(** The virtual member functions a concrete property kind supplies.
    [serialize_out] and [ctypename] are const; [CSystemSerCtx] is passed by
    non-const reference to both serialisers; [Gui] stands for the user
    input an ImGui frame carries. *)

Class CPropertyImpl (CSystemSerCtx Gui CSysName D : Type) : Type := {
  ctypename : D -> CSysName;
  serialize_in_impl :
    istream.t -> CSystemSerCtx -> D -> outcome bool * istream.t * CSystemSerCtx * D;
  serialize_out :
    ostream.t -> CSystemSerCtx -> D -> outcome bool * ostream.t * CSystemSerCtx;
  imgui_widget_impl : Gui -> string -> bool -> D -> outcome bool * D
}.

Section CProperty.

Context {CSystemSerCtx Gui CSysName D : Type}.
Context `{impl : !CPropertyImpl CSystemSerCtx Gui CSysName D}.

(** The listeners that exist, by address. *)
Variable on_cproperty_event : listener_ptr -> CProperty D -> EPropertyEvent -> list listener_call.

Definition set_derived (d : D) (p : CProperty D) : CProperty D :=
  mk_CProperty (m_property_kind p) (m_is_skippable_in_ser p) (m_listeners p) d.

Definition set_skippable (b : bool) (p : CProperty D) : CProperty D :=
  mk_CProperty (m_property_kind p) b (m_listeners p) (derived p).

(** One iteration of the loop of [post_cproperty_event]. *)
Definition deliver (evt : EPropertyEvent)
    (st : CProperty D * list delivery) (l : listener_ptr) : CProperty D * list delivery :=
  let p := st.1 in
  (foldl run_listener_call p (on_cproperty_event l p evt),
   st.2 ++ [mk_delivery l evt (is_skippable_in_serialization p)]).

(** [post_cproperty_event]: copies [m_listeners], calls every listener of
    the copy, then clears the skippable flag for [data_modified]. *)
Definition post_cproperty_event (evt : EPropertyEvent) (p : CProperty D)
    : CProperty D * list delivery :=
  let listeners := set_iteration (m_listeners p) in
  let '(p1, tr) := foldl (deliver evt) (p, []) listeners in
  match evt with
  | data_modified => (set_skippable false p1, tr)
  end.

(** [serialize_in]: the kind's [serialize_in_impl], then the event. *)
Definition serialize_in (ins : istream.t) (ctx : CSystemSerCtx) (p : CProperty D)
    : outcome bool * istream.t * CSystemSerCtx * CProperty D * list delivery :=
  let '(r, is1, ctx1, d1) := serialize_in_impl ins ctx (derived p) in
  match r with
  | Throws => (Throws, is1, ctx1, set_derived d1 p, [])
  | Returns ok =>
      let '(p1, tr) := post_cproperty_event data_modified (set_derived d1 p) in
      (Returns ok, is1, ctx1, p1, tr)
  end.

(** [imgui_widget(label, editable)]. *)
Definition imgui_widget (gui : Gui) (label : string) (editable : bool) (p : CProperty D)
    : outcome bool * CProperty D * list delivery :=
  let '(r, d1) := imgui_widget_impl gui label editable (derived p) in
  match r with
  | Returns true =>
      let '(p1, tr) := post_cproperty_event data_modified (set_derived d1 p) in
      (Returns true, p1, tr)
  | _ => (r, set_derived d1 p, [])
  end.

(** [imgui_widget(label) const]: discards the result. *)
Definition imgui_widget_const (gui : Gui) (label : string) (p : CProperty D)
    : outcome unit * CProperty D * list delivery :=
  let '(r, p1, tr) := imgui_widget gui label false p in
  (match r with Returns _ => Returns () | Throws => Throws end, p1, tr).

End CProperty.

(** ** [class CUnknownProperty : public CProperty] *)

Record CUnknownProperty_members (CSysName : Type) : Type := mk_CUnknownProperty {
  m_ctypename : CSysName;
  m_data : list byte
}.
Arguments mk_CUnknownProperty {CSysName} _ _.
Arguments m_ctypename {CSysName} _.
Arguments m_data {CSysName} _.

Section CUnknownProperty.

Context {CSystemSerCtx Gui CSysName : Type}.

Definition CUnknownProperty_ctor (ctypename : CSysName)
    : CProperty (CUnknownProperty_members CSysName) :=
  CProperty_ctor EPropertyKind.Unknown (mk_CUnknownProperty ctypename []).

Definition raw_data (self : CUnknownProperty_members CSysName) : list byte :=
  m_data self.

(** [serialize_in_impl]: measures the distance from the get position to
    the end of the stream, seeks back, resizes [m_data] to that size and
    reads that many bytes into it; the result is [is.good()]. *)
Definition CUnknownProperty_serialize_in_impl
    (ins : istream.t) (serctx : CSystemSerCtx) (self : CUnknownProperty_members CSysName)
    : outcome bool * istream.t * CSystemSerCtx * CUnknownProperty_members CSysName :=
  let '(beg, is1) := istream.tellg ins in
  let is2 := istream.seekg_off 0 ios.end_ is1 in
  let '(e, is3) := istream.tellg is2 in
  let size := to_size_t (e - beg) in
  let is4 := istream.seekg beg is3 in
  match vector.resize size (m_data self) with
  | None => (Throws, is4, serctx, self)
  | Some buf =>
      let '(got, is5) := istream.read (Z.to_nat size) is4 in
      (Returns (istream.good is5), is5, serctx,
       mk_CUnknownProperty (m_ctypename self) (vector.store got buf))
  end.

(** [serialize_out]: writes [m_data] and returns [true]. *)
Definition CUnknownProperty_serialize_out
    (os : ostream.t) (serctx : CSystemSerCtx) (self : CUnknownProperty_members CSysName)
    : outcome bool * ostream.t * CSystemSerCtx :=
  (Returns true, ostream.write (m_data self) os, serctx).

(** [imgui_widget_impl]: returns [false] when the window skips items, and
    otherwise displays the type name, the size and a hex dump and returns
    [modified], which is still [false]; no member is written. *)
Definition CUnknownProperty_imgui_widget_impl
    (gui : Gui) (label : string) (editable : bool) (self : CUnknownProperty_members CSysName)
    : outcome bool * CUnknownProperty_members CSysName :=
  (Returns false, self).

#[global] Instance CUnknownProperty_impl
    : CPropertyImpl CSystemSerCtx Gui CSysName (CUnknownProperty_members CSysName) := {
  ctypename := m_ctypename;
  serialize_in_impl := CUnknownProperty_serialize_in_impl;
  serialize_out := CUnknownProperty_serialize_out;
  imgui_widget_impl := CUnknownProperty_imgui_widget_impl
}.

End CUnknownProperty.

(** ** Sequences of operations on one property

    What a client can do to a property node, one call at a time.  The
    state is the serialisation context, the node and the callbacks made
    so far; the streams are the caller's and are dropped after the
    call.  [op_post_cproperty_event] stands for a subclass using the
    protected member directly. *)

Section Operations.

Context {CSystemSerCtx Gui CSysName D : Type}.
Context `{impl : !CPropertyImpl CSystemSerCtx Gui CSysName D}.
Variable on_cproperty_event : listener_ptr -> CProperty D -> EPropertyEvent -> list listener_call.

Inductive operation : Type :=
| op_serialize_in (ins : istream.t)
| op_serialize_out (os : ostream.t)
| op_imgui_widget (gui : Gui) (label : string) (editable : bool)
| op_imgui_widget_const (gui : Gui) (label : string)
| op_add_listener (l : listener_ptr)
| op_remove_listener (l : listener_ptr)
| op_post_cproperty_event (evt : EPropertyEvent).

Record node_state : Type := mk_node_state {
  st_ctx : CSystemSerCtx;
  st_prop : CProperty D;
  st_trace : list delivery
}.

Definition step (st : node_state) (op : operation) : node_state :=
  let p := st_prop st in
  match op with
  | op_serialize_in ins =>
      let '(_, _, ctx1, p1, tr) := serialize_in on_cproperty_event ins (st_ctx st) p in
      mk_node_state ctx1 p1 (st_trace st ++ tr)
  | op_serialize_out os =>
      let '(_, _, ctx1) := serialize_out os (st_ctx st) (derived p) in
      mk_node_state ctx1 p (st_trace st)
  | op_imgui_widget gui label editable =>
      let '(_, p1, tr) := imgui_widget on_cproperty_event gui label editable p in
      mk_node_state (st_ctx st) p1 (st_trace st ++ tr)
  | op_imgui_widget_const gui label =>
      let '(_, p1, tr) := imgui_widget_const on_cproperty_event gui label p in
      mk_node_state (st_ctx st) p1 (st_trace st ++ tr)
  | op_add_listener l =>
      mk_node_state (st_ctx st) (add_listener l p) (st_trace st)
  | op_remove_listener l =>
      mk_node_state (st_ctx st) (remove_listener l p) (st_trace st)
  | op_post_cproperty_event evt =>
      let '(p1, tr) := post_cproperty_event on_cproperty_event evt p in
      mk_node_state (st_ctx st) p1 (st_trace st ++ tr)
  end.

Definition run (ops : list operation) (st : node_state) : node_state :=
  foldl step st ops.

End Operations.

Arguments operation : clear implicits.
Arguments node_state : clear implicits.

(** ** Stream faults *)

(** A stream faults for [CUnknownProperty::serialize_in_impl] when it is
    not good on entry, when its device cannot seek, or when the device
    delivers fewer bytes than lie between the get position and the end. *)
Definition in_faults (ins : istream.t) : bool :=
  negb (istream.good ins)
  || negb (streambuf.sb_seekable (istream.rdbuf ins))
  || (streambuf.deliverable (istream.rdbuf ins)
        <? length (streambuf.sb_pending (istream.rdbuf ins))).

(** Positions are [std::streamoff] values: the extent of a stream is
    below 2^63. *)
Definition extent_ok (ins : istream.t) : Prop :=
  (Z.of_nat (streambuf.extent (istream.rdbuf ins)) < 2 ^ 63)%Z.

(** An output stream faults on a write of [n] bytes when it is not good
    or when its device has room for fewer than [n] bytes. *)
Definition out_faults (n : nat) (os : ostream.t) : bool :=
  negb (ostream.good os)
  || match ostream.room os with
     | None => false
     | Some r => r <? n
     end.

(** The bytes a call appended to an output stream. *)
Definition emitted (before after : ostream.t) : list byte :=
  drop (length (ostream.os_data before)) (ostream.os_data after).

(** Everything but [m_listeners] is the same in [p] and [p']. *)
Definition same_but_listeners {D : Type} (p p' : CProperty D) : Prop :=
  m_property_kind p' = m_property_kind p
  /\ m_is_skippable_in_ser p' = m_is_skippable_in_ser p
  /\ derived p' = derived p.

(** ** [vector_streambuf] of [Source/utils.hpp]

    Its constructor sets the get area to the whole vector with [setg] and
    the class overrides nothing, so [seekoff] and [seekpos] are the
    defaults of [std::basic_streambuf], which return [pos_type(-1)]. *)
Definition vector_streambuf (vec : list byte) : streambuf.t :=
  streambuf.mk [] vec false None.

(** ** Fixtures for the examples *)

(** A good, seekable, fault-free input stream positioned after [before]. *)
Definition istream_over (before rest : list byte) : istream.t :=
  istream.mk (streambuf.mk before rest true None) ios.goodbit.

Definition ostream_empty : ostream.t := ostream.mk [] None ios.goodbit.

(** Listeners that only look. *)
Definition onlookers {D : Type} : listener_ptr -> CProperty D -> EPropertyEvent -> list listener_call :=
  fun _ _ _ => [].

(** Listener 1 unregisters itself and listener 2 and registers listener
    9 from its callback; the others only look. *)
Definition meddler {D : Type} : listener_ptr -> CProperty D -> EPropertyEvent -> list listener_call :=
  fun l _ _ =>
    if (l =? 1)%N
    then [call_remove_listener 1%N; call_remove_listener 2%N; call_add_listener 9%N]
    else [].

(** The header gives no concrete kind whose widget edits the value
    ([CUnknownProperty]'s never does), so the base class's
    [imgui_widget] is exercised with a stand-in kind: one boolean that
    the widget flips when it is editable and the frame carries a click.
    It is used in examples only. *)
Definition toggle_kind : CPropertyImpl unit bool unit bool := {|
  ctypename := fun _ => tt;
  serialize_in_impl := fun ins ctx d => (Returns (istream.good ins), ins, ctx, d);
  serialize_out := fun os ctx d => (Returns true, os, ctx);
  imgui_widget_impl := fun gui label editable d =>
    if editable && gui then (Returns true, negb d) else (Returns false, d)
|}.

(** ** The rest of [CPropertyBase.hpp] *)

(** [property_kind_to_display_name]: the switch has no case for
    [TweakDBID], [CName] and [NodeRef], which fall through to the final
    [return "Invalid"]. *)
Definition property_kind_to_display_name (prop_kind : EPropertyKind.t) : string :=
  match prop_kind with
  | EPropertyKind.None => "None"
  | EPropertyKind.Unknown => "Unknown"
  | EPropertyKind.Bool => "Bool"
  | EPropertyKind.Integer => "Integer"
  | EPropertyKind.Float => "Float"
  | EPropertyKind.Double => "Double"
  | EPropertyKind.Combo => "Combo"
  | EPropertyKind.Array => "Array"
  | EPropertyKind.DynArray => "DynArray"
  | EPropertyKind.Handle => "Handle"
  | EPropertyKind.Object => "Object"
  | _ => "Invalid"
  end.

(** The operations other than a load and a direct event post. *)
Definition is_load_or_post {Gui : Type} (op : operation Gui) : bool :=
  match op with
  | op_serialize_in _ | op_post_cproperty_event _ => true
  | _ => false
  end.

(** ** Fixed-width unsigned integers

    A [uintN_t] value is a [Z] in [0, 2^N); the result of an operation
    is reduced modulo [2^N] where C++ does so. *)

Definition to_uint16 (z : Z) : Z := (z mod 2 ^ 16)%Z.
Definition to_uint32 (z : Z) : Z := (z mod 2 ^ 32)%Z.
Definition to_uint64 (z : Z) : Z := (z mod 2 ^ 64)%Z.

(** ** [byteswap] ([Source/utils.hpp] and [redx/core/utils.hpp], same body)

    In the 16-bit overload the operands are promoted to [int], so the
    left shift loses nothing and the conversion of the result to
    [uint16_t] drops the high bits.  In the 32-bit overload every
    operation is on [uint32_t]. *)

Definition byteswap16 (value : Z) : Z :=
  to_uint16 (Z.lor (Z.shiftl value 8) (Z.shiftr value 8)).

Definition byteswap32 (value : Z) : Z :=
  let tmp :=
    Z.lor (Z.land (to_uint32 (Z.shiftl value 8)) 0xFF00FF00)
          (Z.land (Z.shiftr value 8) 0x00FF00FF) in
  Z.lor (to_uint32 (Z.shiftl tmp 16)) (Z.shiftr tmp 16).

(** The byte of [v] at position [i], counted from the least significant. *)
Definition byte_at (i : Z) (v : Z) : Z := ((v / 2 ^ (8 * i)) mod 2 ^ 8)%Z.

(** ** [class CRC32] ([Source/utils.hpp])

    [value] is a [uint32_t], initially [0xFFFFFFFF]; [feed] consumes each
    byte in two steps of four bits through a table of sixteen entries. *)

Module CRC32.

Definition lut : list Z :=
  [0x00000000; 0x1DB71064; 0x3B6E20C8; 0x26D930AC;
   0x76DC4190; 0x6B6B51F4; 0x4DB26158; 0x5005713C;
   0xEDB88320; 0xF00F9344; 0xD6D6A3E8; 0xCB61B38C;
   0x9B64C2B0; 0x86D3D2D4; 0xA00AE278; 0xBDBDF21C]%Z.

Definition lut_at (i : Z) : Z := nth (Z.to_nat i) lut 0%Z.

Definition initial : Z := 0xFFFFFFFF%Z.

(** The body of the loop of [feed], for the byte [*pc]. *)
Definition feed_byte (value : Z) (c : Z) : Z :=
  let value :=
    Z.lxor (lut_at (Z.land (Z.lxor value c) 0x0F)) (Z.shiftr value 4) in
  let value :=
    Z.lxor (lut_at (Z.land (Z.lxor value (Z.shiftr c 4)) 0x0F)) (Z.shiftr value 4) in
  value.

Definition feed (value : Z) (data : list byte) : Z :=
  foldl (fun value c => feed_byte value (Z.of_N (Byte.to_N c))) value data.

(** [get()] returns [~value]. *)
Definition get (value : Z) : Z := to_uint32 (Z.lnot value).

(** [reset(crc)], whose default argument is [0xFFFFFFFF]. *)
Definition reset (crc : Z) : Z := crc.

End CRC32.

(** The reference the table-driven [CRC32::feed] is compared with (it
    is not part of the source): the reflected CRC-32 with polynomial
    [0xEDB88320], one bit at a time.  A byte is absorbed by xor-ing it
    into the low bits of the register and shifting eight times. *)
Definition crc32_polynomial : Z := 0xEDB88320%Z.

Definition crc32_bit_step (c : Z) : Z :=
  Z.lxor (Z.shiftr c 1) (if Z.odd c then crc32_polynomial else 0%Z).

Definition crc32_bitwise_byte (value : Z) (c : Z) : Z :=
  Nat.iter 8 crc32_bit_step (Z.lxor value c).

Definition crc32_bitwise (value : Z) (data : list byte) : Z :=
  foldl (fun value c => crc32_bitwise_byte value (Z.of_N (Byte.to_N c))) value data.

(** ** [redx::starts_with] ([redx/core/utils.hpp])

    [std::equal(first1, last1, first2)] compares as many elements as the
    first range has; the length test before it keeps the second range
    long enough. *)

Fixpoint std_equal (r1 r2 : list byte) : bool :=
  match r1, r2 with
  | [], _ => true
  | x :: r1', y :: r2' => Byte.eqb x y && std_equal r1' r2'
  | _ :: _, [] => false
  end.

Definition starts_with (str with_ : list byte) : bool :=
  (length with_ <=? length str) && std_equal with_ str.

(** ** [redx::integer_range<T>], for an unsigned [T] of [w] bits
    ([u32range], [u64range])

    Sums and differences wrap modulo [2^w]; [integer_type(-1)] is the
    largest value. *)

Module integer_range.

Section Width.

Variable w : Z.

Definition wrap (z : Z) : Z := (z mod 2 ^ w)%Z.

Definition minus_one : Z := wrap (-1).

Record t : Type := mk {
  m_beg : Z;
  m_end : Z
}.

(** The default constructor: both members are initialised to [0]. *)
Definition default : t := mk 0 0.

(** [integer_range(beg, end)]: an end before the beginning is replaced by
    the beginning (and a warning is logged). *)
Definition ctor (beg end_ : Z) : t :=
  if (end_ <? beg)%Z then mk beg beg else mk beg end_.

Definition size (r : t) : Z := wrap (m_end r - m_beg r).

Definition empty (r : t) : bool := (m_end r =? m_beg r)%Z.

Definition beg (r : t) : Z := m_beg r.

Definition end_ (r : t) : Z := m_end r.

(** [operator[]]. *)
Definition at_ (r : t) (idx : Z) : Z :=
  if (size r <? idx)%Z then m_end r else wrap (m_beg r + idx).

Definition offset (r : t) (off : Z) : t :=
  ctor (wrap (m_beg r + off)) (wrap (m_end r + off)).

Definition is_subrange (r other : t) : bool :=
  (m_beg r <=? beg other)%Z && (beg other <=? end_ other)%Z
  && (end_ other <=? m_end r)%Z.

Definition subrange_unchecked (r : t) (off count : Z) : t :=
  let beg_index := wrap (m_beg r + off) in
  let end_index :=
    if (count =? minus_one)%Z then m_end r else wrap (wrap (m_beg r + off) + count) in
  ctor beg_index end_index.

Definition is_valid_subrange (r : t) (off count : Z) : bool :=
  is_subrange r (subrange_unchecked r off count).

Definition subrange (r : t) (off count : Z) : t :=
  let ret := subrange_unchecked r off count in
  if negb (is_subrange r ret) then default else ret.

(** A value of the integer type, and a range whose members are. *)
Definition value (z : Z) : Prop := (0 <= z < 2 ^ w)%Z.

Definition well_formed (r : t) : Prop :=
  value (m_beg r) /\ value (m_end r) /\ (m_beg r <= m_end r)%Z.

End Width.

End integer_range.

(** ** [redx::insert_sorted], [redx::insert_sorted_nodupe]
    ([redx/core/utils.hpp])

    The element type has [operator<] and [operator==]; an iterator is
    an index into the vector.  [std::lower_bound(first, last, item)]
    returns the furthermost position such that every element before it
    is less than [item]. *)

Section InsertSorted.

Context {T : Type} `{EqDecision T} (lt : relation T) `{!RelDecision lt}.

(** "Not greater": the order of a sorted vector that may repeat
    elements. *)
Definition not_gt (x y : T) : Prop := ~ lt y x.

Fixpoint lower_bound (range : list T) (item : T) : nat :=
  match range with
  | [] => 0
  | x :: range' => if decide (lt x item) then S (lower_bound range' item) else 0
  end.

(** [vec.insert(pos, item)]. *)
Definition vector_insert (vec : list T) (pos : nat) (item : T) : list T :=
  take pos vec ++ item :: drop pos vec.

Definition insert_sorted (vec : list T) (item : T) : nat * list T :=
  let it := lower_bound vec item in
  (it, vector_insert vec it item).

(** The position, whether the item was inserted, and the vector. *)
Definition insert_sorted_nodupe (vec : list T) (item : T) : nat * bool * list T :=
  let it := lower_bound vec item in
  match vec !! it with
  | Some x =>
      if decide (x = item) then (it, false, vec)
      else (it, true, vector_insert vec it item)
  | None => (it, true, vector_insert vec it item)
  end.

(** The overload that searches from [start] on. *)
Definition insert_sorted_nodupe_from (vec : list T) (start : nat) (item : T)
    : nat * bool * list T :=
  let it := start + lower_bound (drop start vec) item in
  match vec !! it with
  | Some x =>
      if decide (x = item) then (it, false, vec)
      else (it, true, vector_insert vec it item)
  | None => (it, true, vector_insert vec it item)
  end.

End InsertSorted.

(** ** Integer types and [redx::cmp_less], [redx::integral_cast]
    ([redx/core/utils.hpp])

    The templates are instantiated at the fixed-width integer types.
    A type is its signedness and width; a value of the type is a [Z]
    within its limits. *)

Module inttype.

Record t : Type := mk {
  is_signed : bool;
  bits : Z
}.

Definition fixed_width (ty : t) : Prop :=
  bits ty = 8%Z \/ bits ty = 16%Z \/ bits ty = 32%Z \/ bits ty = 64%Z.

(** [std::numeric_limits<T>::lowest()] and [max()]. *)
Definition lowest (ty : t) : Z :=
  if is_signed ty then (- 2 ^ (bits ty - 1))%Z else 0%Z.

Definition max (ty : t) : Z :=
  if is_signed ty then (2 ^ (bits ty - 1) - 1)%Z else (2 ^ bits ty - 1)%Z.

Definition in_range (ty : t) (z : Z) : Prop := (lowest ty <= z <= max ty)%Z.

(** [static_cast<T>(z)]: the value congruent to [z] modulo [2^bits]. *)
Definition static_cast (ty : t) (z : Z) : Z :=
  if is_signed ty
  then ((z + 2 ^ (bits ty - 1)) mod 2 ^ bits ty - 2 ^ (bits ty - 1))%Z
  else (z mod 2 ^ bits ty)%Z.

Definition make_unsigned (ty : t) : t := mk false (bits ty).

Definition int : t := mk true 32.

(** Integral promotion: the types narrower than [int] become [int]. *)
Definition promote (ty : t) : t :=
  if (bits ty <? 32)%Z then int else ty.

(** The usual arithmetic conversions: the common type of a binary
    operator.  Of two promoted types of the same signedness the wider;
    otherwise the unsigned one unless the signed one is wider (and then
    represents every value of the unsigned one). *)
Definition common (a b : t) : t :=
  let a := promote a in
  let b := promote b in
  if Bool.eqb (is_signed a) (is_signed b)
  then (if (bits a <? bits b)%Z then b else a)
  else
    let '(s, u) := if is_signed a then (a, b) else (b, a) in
    if (bits s <=? bits u)%Z then u else s.

(** The built-in [<] and [==] on operands of types [a] and [b]. *)
Definition builtin_lt (a b : t) (x y : Z) : bool :=
  (static_cast (common a b) x <? static_cast (common a b) y)%Z.

Definition builtin_eq (a b : t) (x y : Z) : bool :=
  (static_cast (common a b) x =? static_cast (common a b) y)%Z.

End inttype.

(** [cmp_less<T, U>(t, u)]. *)
Definition cmp_less (T U : inttype.t) (t u : Z) : bool :=
  let UT := inttype.make_unsigned T in
  let UU := inttype.make_unsigned U in
  if Bool.eqb (inttype.is_signed T) (inttype.is_signed U)
  then inttype.builtin_lt T U t u
  else if inttype.is_signed T
  then
    if inttype.builtin_lt T inttype.int t 0 then true
    else inttype.builtin_lt UT U (inttype.static_cast UT t) u
  else
    if inttype.builtin_lt U inttype.int u 0 then false
    else inttype.builtin_lt T UU t (inttype.static_cast UU u).

Inductive integral_cast_result : Type :=
| lossless
| negative_overflow
| positive_overflow.

(** [detail::integral_cast_traits<TargetT, SourceT>]. *)
Module integral_cast_traits.

Definition may_positive_overflow (tgt src : inttype.t) : bool :=
  inttype.builtin_lt tgt src (inttype.max tgt) (inttype.max src).

Definition may_negative_overflow (tgt src : inttype.t) : bool :=
  cmp_less src tgt (inttype.lowest src) (inttype.lowest tgt).

End integral_cast_traits.

(** [detail::integral_cast_check<TargetT, SourceT>(x)]. *)
Definition integral_cast_check (tgt src : inttype.t) (x : Z) : integral_cast_result :=
  if integral_cast_traits.may_negative_overflow tgt src
     && inttype.builtin_lt src src x (inttype.static_cast src (inttype.lowest tgt))
  then negative_overflow
  else if integral_cast_traits.may_positive_overflow tgt src
          && inttype.builtin_lt src src (inttype.static_cast src (inttype.max tgt)) x
  then positive_overflow
  else lossless.

(** [detail::integral_cast_check2<TargetT, SourceT>(x, casted)]. *)
Definition integral_cast_check2 (tgt src : inttype.t) (x casted : Z) : bool :=
  let same_signedness := Bool.eqb (inttype.is_signed tgt) (inttype.is_signed src) in
  if same_signedness && integral_cast_traits.may_positive_overflow tgt src
  then inttype.builtin_eq src src (inttype.static_cast src casted) x
  else
    match integral_cast_check tgt src x with
    | lossless => true
    | _ => false
    end.


(** [integral_cast<T>(x, ok)]: the converted value and [ok]. *)
Definition integral_cast (tgt src : inttype.t) (x : Z) : Z * bool :=
  let res := inttype.static_cast tgt x in
  (res, integral_cast_check2 tgt src x res).

(** ** [redx::align_up], [redx::align_down] ([redx/core/utils.hpp])

    At [T = uintptr_t] (the [void*] overloads) and [T = uint64_t]: every
    operation is on 64-bit unsigned values.  "alignment is assumed to be
    a power of two". *)

Definition align_up (address alignment : Z) : Z :=
  Z.land (to_uint64 (to_uint64 (address + alignment) - 1))
         (to_uint64 (Z.lnot (to_uint64 (alignment - 1)))).

Definition align_down (address alignment : Z) : Z :=
  Z.land address (to_uint64 (Z.lnot (to_uint64 (alignment - 1)))).

(** ** [redx::ror], [redx::rol] ([redx/core/utils.hpp]), for an unsigned
    [T] of [nbits] bits

    [n] is an [int16_t].  The operands of the shifts are promoted: a
    [T] narrower than [int] is shifted as an [int], and a shift by the
    width of the promoted type or more has no defined result ([None]).
    The value returned is converted to [T], which keeps the low
    [nbits] bits. *)

(** [while (n < 0) n += nbits;] *)
Fixpoint add_while_negative (fuel : nat) (n nbits : Z) : Z :=
  match fuel with
  | O => n
  | S fuel' => if (n <? 0)%Z then add_while_negative fuel' (n + nbits) nbits else n
  end.

Definition promoted_bits (nbits : Z) : Z :=
  if (nbits <? 32)%Z then 32%Z else nbits.

(** The two statements that normalise [n]; [%] truncates. *)
Definition rotate_amount (nbits n : Z) : Z :=
  let n := add_while_negative (Z.to_nat (- n)) n nbits in
  Z.rem n nbits.

Definition ror (nbits x n : Z) : option Z :=
  if (n =? 0)%Z then Some x
  else
    let n := rotate_amount nbits n in
    if (promoted_bits nbits <=? nbits - n)%Z then None
    else Some ((Z.lor (Z.shiftr x n) (Z.shiftl x (nbits - n))) mod 2 ^ nbits)%Z.

Definition rol (nbits x n : Z) : option Z :=
  if (n =? 0)%Z then Some x
  else
    let n := rotate_amount nbits n in
    if (promoted_bits nbits <=? nbits - n)%Z then None
    else Some ((Z.lor (Z.shiftl x n) (Z.shiftr x (nbits - n))) mod 2 ^ nbits)%Z.

(** * Properties of the stream model *)

Section Streams.

Implicit Types (sb : streambuf.t) (s : istream.t).

Lemma reposition_here sb :
  streambuf.reposition (length (streambuf.sb_consumed sb)) sb = sb.
Proof.
  destruct sb as [c p sk bf]; unfold streambuf.reposition; simpl.
  by rewrite take_app_length, drop_app_length.
Qed.

Lemma reposition_end sb :
  streambuf.reposition (streambuf.extent sb) sb
  = streambuf.mk (streambuf.sb_consumed sb ++ streambuf.sb_pending sb) []
      (streambuf.sb_seekable sb) (streambuf.sb_bad_from sb).
Proof.
  destruct sb as [c p sk bf]; unfold streambuf.reposition, streambuf.extent; simpl.
  rewrite <- length_app. by rewrite firstn_all, drop_all.
Qed.

Lemma tellg_good s :
  istream.good s = true ->
  streambuf.sb_seekable (istream.rdbuf s) = true ->
  istream.tellg s = (Z.of_nat (length (streambuf.sb_consumed (istream.rdbuf s))), s).
Proof.
  intros Hg Hs. unfold istream.tellg, istream.sentry. rewrite Hg.
  assert (istream.fail s = false) as ->.
  { destruct s as [sb [e f b]]; unfold istream.good, istream.fail, ios.good, ios.fail in *;
      simpl in *. by destruct e, f, b. }
  unfold streambuf.pubseekoff, streambuf.pubseekpos. rewrite Hs, Z.add_0_r.
  replace (0 <=? _)%Z with true by (symmetry; apply Z.leb_le; lia).
  replace (_ <=? _)%Z with true
    by (symmetry; apply Z.leb_le; unfold streambuf.extent; lia).
  simpl. rewrite Nat2Z.id, reposition_here. by destruct s.
Qed.

Lemma good_state s :
  istream.good s = true -> istream.rdstate s = ios.goodbit.
Proof.
  destruct s as [sb [e f b]]; unfold istream.good, ios.good; simpl.
  by destruct e, f, b.
Qed.

Lemma seekg_end_good s :
  istream.good s = true ->
  streambuf.sb_seekable (istream.rdbuf s) = true ->
  istream.seekg_off 0 ios.end_ s
  = istream.mk (streambuf.reposition (streambuf.extent (istream.rdbuf s)) (istream.rdbuf s))
      (istream.rdstate s).
Proof.
  intros Hg Hs. pose proof (good_state s Hg) as Hst.
  destruct s as [sb st]; simpl in *; subst st.
  unfold istream.seekg_off, istream.setstate, istream.sentry; simpl.
  unfold streambuf.pubseekoff, streambuf.pubseekpos. rewrite Hs, Z.add_0_r.
  replace (0 <=? _)%Z with true by (symmetry; apply Z.leb_le; lia).
  rewrite Z.leb_refl; simpl.
  replace (_ =? -1)%Z with false by (symmetry; apply Z.eqb_neq; lia).
  by rewrite Nat2Z.id.
Qed.

Lemma seekg_good (n : nat) s :
  istream.good s = true ->
  streambuf.sb_seekable (istream.rdbuf s) = true ->
  n <= streambuf.extent (istream.rdbuf s) ->
  istream.seekg (Z.of_nat n) s
  = istream.mk (streambuf.reposition n (istream.rdbuf s)) (istream.rdstate s).
Proof.
  intros Hg Hs Hn. pose proof (good_state s Hg) as Hst.
  destruct s as [sb st]; simpl in *; subst st.
  unfold istream.seekg, istream.setstate, istream.sentry; simpl.
  unfold streambuf.pubseekpos. rewrite Hs.
  replace (0 <=? _)%Z with true by (symmetry; apply Z.leb_le; lia).
  replace (_ <=? _)%Z with true by (symmetry; apply Z.leb_le; lia).
  simpl.
  replace (_ =? -1)%Z with false by (symmetry; apply Z.eqb_neq; lia).
  by rewrite Nat2Z.id.
Qed.

Lemma read_good (n : nat) s :
  istream.good s = true ->
  let sb := istream.rdbuf s in
  let k := n `min` streambuf.deliverable sb in
  istream.read n s
  = (take k (streambuf.sb_pending sb),
     istream.mk
       (streambuf.mk (streambuf.sb_consumed sb ++ take k (streambuf.sb_pending sb))
          (drop k (streambuf.sb_pending sb)) (streambuf.sb_seekable sb)
          (streambuf.sb_bad_from sb))
       (if k <? n then ios.set_fail_eof (istream.rdstate s) else istream.rdstate s)).
Proof.
  intros Hg sb k. unfold istream.read, istream.sentry. rewrite Hg.
  unfold streambuf.sgetn. fold sb. fold k.
  assert (length (take k (streambuf.sb_pending sb)) = k) as ->.
  { rewrite length_take. unfold k, streambuf.deliverable.
    destruct (streambuf.sb_bad_from sb); lia. }
  unfold istream.setstate; simpl. by destruct (k <? n).
Qed.

Lemma deliverable_le sb :
  streambuf.deliverable sb <= length (streambuf.sb_pending sb).
Proof. unfold streambuf.deliverable. destruct (streambuf.sb_bad_from sb); lia. Qed.

(** Once failbit or badbit is set, every input function fails and leaves
    the stream buffer alone. *)
Lemma tellg_failed s :
  istream.fail s = true ->
  istream.tellg s = ((-1)%Z, istream.setstate ios.set_failbit s).
Proof.
  destruct s as [sb [e f b]]; unfold istream.fail, ios.fail; simpl; intros Hf.
  unfold istream.tellg, istream.sentry, istream.good, istream.fail, ios.good, ios.fail.
  simpl. by destruct e, f, b.
Qed.

Lemma seekg_failed pos s :
  istream.fail s = true ->
  istream.seekg pos s = istream.setstate (fun st => ios.set_failbit (ios.clear_eofbit st)) s.
Proof.
  destruct s as [sb [e f b]]; unfold istream.fail, ios.fail; simpl; intros Hf.
  unfold istream.seekg, istream.sentry, istream.good, istream.fail, ios.good, ios.fail.
  simpl. by destruct e, f, b.
Qed.

Lemma seekg_off_failed off dir s :
  istream.fail s = true ->
  istream.seekg_off off dir s
  = istream.setstate (fun st => ios.set_failbit (ios.clear_eofbit st)) s.
Proof.
  destruct s as [sb [e f b]]; unfold istream.fail, ios.fail; simpl; intros Hf.
  unfold istream.seekg_off, istream.sentry, istream.good, istream.fail, ios.good, ios.fail.
  simpl. by destruct e, f, b.
Qed.

Lemma read_failed n s :
  istream.fail s = true ->
  istream.read n s = ([], istream.setstate ios.set_failbit s).
Proof.
  destruct s as [sb [e f b]]; unfold istream.fail, ios.fail; simpl; intros Hf.
  unfold istream.read, istream.sentry, istream.good, ios.good.
  simpl. by destruct e, f, b.
Qed.

End Streams.

(** * Properties of [std::vector::resize] *)

Lemma resize_fits (n : nat) (v : list byte) :
  (Z.of_nat n < 2 ^ 63)%Z ->
  exists buf, vector.resize (Z.of_nat n) v = Some buf /\ length buf = n.
Proof.
  intros Hn. unfold vector.resize, vector.max_size.
  replace (_ <? _)%Z with false by (symmetry; apply Z.ltb_ge; lia).
  eexists; split; [done |].
  rewrite length_app, length_take, length_replicate, Nat2Z.id. lia.
Qed.

Lemma store_all (got buf : list byte) :
  length buf = length got -> vector.store got buf = got.
Proof.
  intros H. unfold vector.store. rewrite drop_ge by lia. apply app_nil_r.
Qed.

(** * [CUnknownProperty::serialize_in_impl] case by case *)

Lemma to_size_t_small (n : nat) :
  (Z.of_nat n < 2 ^ 63)%Z -> to_size_t (Z.of_nat n) = Z.of_nat n.
Proof. intros H. unfold to_size_t. apply Z.mod_small. lia. Qed.

#[local] Opaque istream.tellg istream.seekg istream.seekg_off istream.read
  vector.resize to_size_t.

Section UnknownIn.

Context {CSystemSerCtx CSysName : Type}.
Implicit Types (ins : istream.t) (serctx : CSystemSerCtx)
  (self : CUnknownProperty_members CSysName).

(** On a good, seekable stream the function reads what the device
    delivers of the pending bytes and reports whether that was all. *)
Lemma unknown_in_good ins serctx self :
  istream.good ins = true ->
  streambuf.sb_seekable (istream.rdbuf ins) = true ->
  extent_ok ins ->
  let sb := istream.rdbuf ins in
  let p := streambuf.sb_pending sb in
  let k := streambuf.deliverable sb in
  exists buf, length buf = length p /\
    CUnknownProperty_serialize_in_impl ins serctx self
    = (Returns (negb (k <? length p)),
       istream.mk
         (streambuf.mk (streambuf.sb_consumed sb ++ take k p) (drop k p)
            (streambuf.sb_seekable sb) (streambuf.sb_bad_from sb))
         (if k <? length p then ios.set_fail_eof (istream.rdstate ins)
          else istream.rdstate ins),
       serctx,
       mk_CUnknownProperty (m_ctypename self) (vector.store (take k p) buf)).
Proof.
  intros Hg Hs Hx sb p k.
  pose proof (good_state ins Hg) as Hst.
  destruct ins as [[c q sk bf] st]; simpl in *; subst st sk sb p.
  unfold extent_ok, streambuf.extent in Hx; simpl in Hx.
  destruct (resize_fits (length q) (m_data self)) as (buf & Hbuf & Hlen); [lia |].
  exists buf; split; [done |].
  unfold CUnknownProperty_serialize_in_impl.
  rewrite tellg_good by done. simpl.
  rewrite seekg_end_good by done. rewrite reposition_end. simpl.
  rewrite tellg_good by done. simpl.
  rewrite length_app, Nat2Z.inj_add.
  replace (Z.of_nat (length c) + Z.of_nat (length q) - Z.of_nat (length c))%Z
    with (Z.of_nat (length q)) by lia.
  rewrite to_size_t_small by lia.
  rewrite seekg_good; [| done | done | unfold streambuf.extent; simpl; rewrite length_app; lia].
  unfold streambuf.reposition; simpl.
  rewrite app_nil_r, take_app_length, drop_app_length.
  rewrite Hbuf, Nat2Z.id.
  rewrite read_good by done. simpl.
  pose proof (deliverable_le (streambuf.mk c q true bf)) as Hk; simpl in Hk.
  fold k in Hk |- *.
  replace (length q `min` k) with k by lia.
  unfold istream.good; simpl. by destruct (k <? length q).
Qed.

(** On a stream that is not good, or whose device cannot seek, both
    [tellg] calls give [-1], the size is [0] and the read is refused. *)
Lemma unknown_in_unusable ins serctx self :
  istream.good ins = false \/ streambuf.sb_seekable (istream.rdbuf ins) = false ->
  exists st,
    ios.good st = false /\
    CUnknownProperty_serialize_in_impl ins serctx self
    = (Returns false, istream.mk (istream.rdbuf ins) st, serctx,
       mk_CUnknownProperty (m_ctypename self) []).
Proof.
  intros H.
  destruct ins as [[c q sk bf] [e f b]].
  unfold CUnknownProperty_serialize_in_impl, istream.good, ios.good in *; simpl in *.
  destruct (e || f || b) eqn:Hefb.
  - eexists. split; [| destruct e, f, b; try discriminate Hefb; vm_compute; reflexivity].
    destruct e, f, b; try discriminate Hefb; reflexivity.
  - destruct H as [H | ->]; [done |].
    destruct e, f, b; try discriminate Hefb.
    eexists; split; [| vm_compute; reflexivity]. reflexivity.
Qed.

End UnknownIn.

(** * Iterating the listener set *)

Lemma elem_of_set_iteration (s : gset listener_ptr) (l : listener_ptr) :
  l ∈ set_iteration s <-> l ∈ s.
Proof.
  unfold set_iteration. rewrite merge_sort_Permutation. apply elem_of_elements.
Qed.

Lemma NoDup_set_iteration (s : gset listener_ptr) : NoDup (set_iteration s).
Proof.
  unfold set_iteration. rewrite merge_sort_Permutation. apply NoDup_elements.
Qed.

(** * The base class: what the listeners' calls can and cannot change *)

Section CPropertyFacts.

Context {CSystemSerCtx Gui CSysName D : Type}.
Context `{impl : !CPropertyImpl CSystemSerCtx Gui CSysName D}.
Variable h : listener_ptr -> CProperty D -> EPropertyEvent -> list listener_call.

Implicit Types (p : CProperty D) (evt : EPropertyEvent).

Lemma listener_calls_frame (calls : list listener_call) p :
  same_but_listeners p (foldl run_listener_call p calls).
Proof.
  revert p. induction calls as [| c calls IH]; intros p; simpl.
  - by repeat split.
  - destruct (IH (run_listener_call p c)) as (Hk & Hf & Hd).
    unfold same_but_listeners.
    repeat split; [rewrite Hk | rewrite Hf | rewrite Hd]; by destruct c.
Qed.

(** The loop of [post_cproperty_event]: one callback per element of the
    copied set, each seeing the flag as it was before the loop. *)
Lemma deliver_loop evt (ls : list listener_ptr) p (tr : list delivery) :
  let r := foldl (deliver h evt) (p, tr) ls in
  r.2 = tr ++ map (fun l => mk_delivery l evt (m_is_skippable_in_ser p)) ls
  /\ same_but_listeners p r.1.
Proof.
  revert p tr. induction ls as [| l ls IH]; intros p tr; simpl.
  - rewrite app_nil_r. by repeat split.
  - destruct (listener_calls_frame (h l p evt) p) as (Hk & Hf & Hd).
    destruct (IH (foldl run_listener_call p (h l p evt))
      (tr ++ [mk_delivery l evt (is_skippable_in_serialization p)]))
      as (Htr & Hk' & Hf' & Hd').
    unfold same_but_listeners in *.
    change (deliver h evt (p, tr) l)
      with (foldl run_listener_call p (h l p evt),
            tr ++ [mk_delivery l evt (is_skippable_in_serialization p)]).
    split.
    + rewrite Htr, Hf, <- app_assoc. reflexivity.
    + repeat split; congruence.
Qed.

Lemma post_trace evt p :
  (post_cproperty_event h evt p).2
  = map (fun l => mk_delivery l evt (m_is_skippable_in_ser p))
      (set_iteration (m_listeners p)).
Proof.
  unfold post_cproperty_event.
  pose proof (deliver_loop evt (set_iteration (m_listeners p)) p []) as [Htr _].
  destruct (foldl _ _ _) as [p1 tr]. simpl in Htr. by destruct evt.
Qed.

Lemma post_frame evt p :
  let p' := (post_cproperty_event h evt p).1 in
  m_property_kind p' = m_property_kind p /\ derived p' = derived p.
Proof.
  unfold post_cproperty_event.
  pose proof (deliver_loop evt (set_iteration (m_listeners p)) p [])
    as (_ & Hk & _ & Hd).
  destruct (foldl _ _ _) as [p1 tr]. simpl in *. by destruct evt.
Qed.

Lemma post_listeners_called evt p :
  map d_listener (post_cproperty_event h evt p).2 = set_iteration (m_listeners p).
Proof. rewrite post_trace, map_map. simpl. apply map_id. Qed.

Lemma post_events evt p :
  Forall (fun d => d_event d = evt) (post_cproperty_event h evt p).2.
Proof. rewrite post_trace. apply List.Forall_map, Forall_true. done. Qed.

Lemma post_flag_seen evt p :
  Forall (fun d => d_skippable_seen d = m_is_skippable_in_ser p)
    (post_cproperty_event h evt p).2.
Proof. rewrite post_trace. apply List.Forall_map, Forall_true. done. Qed.

Lemma post_data_modified_clears p :
  m_is_skippable_in_ser (post_cproperty_event h data_modified p).1 = false.
Proof.
  unfold post_cproperty_event. by destruct (foldl _ _ _).
Qed.

Lemma serialize_in_flag ins ctx p :
  match serialize_in h ins ctx p with
  | (Returns _, _, _, p', _) => m_is_skippable_in_ser p' = false
  | (Throws, _, _, p', _) => m_is_skippable_in_ser p' = m_is_skippable_in_ser p
  end.
Proof.
  unfold serialize_in.
  destruct (serialize_in_impl ins ctx (derived p)) as [[[r is1] ctx1] d1].
  destruct r as [ok |]; [| done].
  pose proof (post_data_modified_clears (set_derived d1 p)) as Hc.
  by destruct (post_cproperty_event h data_modified (set_derived d1 p)).
Qed.

End CPropertyFacts.

(** * The base class: notification *)

Section Notification.

Context {CSystemSerCtx Gui CSysName D : Type}.
Context `{impl : !CPropertyImpl CSystemSerCtx Gui CSysName D}.

Implicit Types (h : listener_ptr -> CProperty D -> EPropertyEvent -> list listener_call)
  (p : CProperty D) (evt : EPropertyEvent).

(** C10: [post_cproperty_event] iterates over a copy of [m_listeners]
    taken before the first callback.  Whatever the callbacks do to the
    listener set ([h], [h'] are arbitrary: they may unregister the
    listener itself or others, or register new ones), the listeners
    called for the event in flight are exactly those registered when the
    event was posted, each once, in the order of the copy. *)
Theorem post_cproperty_event_snapshot h h' evt p :
  map d_listener (post_cproperty_event h evt p).2 = set_iteration (m_listeners p)
  /\ (forall l, l ∈ map d_listener (post_cproperty_event h evt p).2 <-> l ∈ m_listeners p)
  /\ NoDup (map d_listener (post_cproperty_event h evt p).2)
  /\ (post_cproperty_event h evt p).2 = (post_cproperty_event h' evt p).2.
Proof.
  rewrite post_listeners_called. repeat split.
  - apply elem_of_set_iteration.
  - apply elem_of_set_iteration.
  - apply NoDup_set_iteration.
  - by rewrite !post_trace.
Qed.

(** C3 (amended): the listeners are called before the flag is cleared.
    Inside its callback every listener reads the value
    [is_skippable_in_serialization()] had when the event was posted
    ([true] for the first [data_modified] event of a node), and the flag is
    [false] once [post_cproperty_event] has returned. *)
Theorem listeners_see_flag_before_it_is_cleared h p :
  Forall (fun d => d_skippable_seen d = is_skippable_in_serialization p)
    (post_cproperty_event h data_modified p).2
  /\ is_skippable_in_serialization (post_cproperty_event h data_modified p).1 = false.
Proof.
  split; [apply post_flag_seen | apply post_data_modified_clears].
Qed.

(** C8: when [imgui_widget_impl] reports a modification,
    [imgui_widget] has called every listener that was registered when the
    event was posted, with [data_modified], by the time it returns: the
    callbacks are part of the call's own effect. *)
Theorem imgui_widget_broadcast h gui label editable p d1 :
  imgui_widget_impl gui label editable (derived p) = (Returns true, d1) ->
  let '(r, _, tr) := imgui_widget h gui label editable p in
  r = Returns true
  /\ map d_listener tr = set_iteration (m_listeners p)
  /\ Forall (fun d => d_event d = data_modified) tr
  /\ (forall l, l ∈ m_listeners p -> l ∈ map d_listener tr).
Proof.
  intros Himpl. unfold imgui_widget. rewrite Himpl.
  pose proof (post_listeners_called h data_modified (set_derived d1 p)) as Hmap.
  pose proof (post_events h data_modified (set_derived d1 p)) as Hev.
  destruct (post_cproperty_event h data_modified (set_derived d1 p)) as [p1 tr].
  simpl in *. repeat split; try done.
  intros l Hl. rewrite Hmap. by apply elem_of_set_iteration.
Qed.

(** C2 (amended): the flag is [true] when the node is constructed.
    [serialize_in] posts [data_modified] whenever [serialize_in_impl]
    returns, with either result, so after [serialize_in] has returned the
    flag is [false]; when [serialize_in_impl] throws no event is posted and
    the flag keeps its value. *)
Theorem skippable_false_after_serialize_in h ins ctx p :
  (forall k (d : D), is_skippable_in_serialization (CProperty_ctor k d) = true)
  /\ match serialize_in h ins ctx p with
     | (Returns _, _, _, p', _) => is_skippable_in_serialization p' = false
     | (Throws, _, _, p', _) =>
         is_skippable_in_serialization p' = is_skippable_in_serialization p
     end.
Proof.
  split; [done | apply serialize_in_flag].
Qed.

(** C5, first part: for every kind, [serialize_in] returns what
    [serialize_in_impl] returned, and when that was a result, [true] or
    [false] alike, every registered listener has been called exactly
    once, with [data_modified]. *)
Lemma serialize_in_result_and_trace h ins ctx p :
  let '(r0, is0, ctx0, d0) := serialize_in_impl ins ctx (derived p) in
  let '(r, is1, ctx1, p1, tr) := serialize_in h ins ctx p in
  r = r0 /\ is1 = is0 /\ ctx1 = ctx0 /\ derived p1 = d0
  /\ match r0 with
     | Returns _ =>
         tr = map (fun l => mk_delivery l data_modified (is_skippable_in_serialization p))
                (set_iteration (m_listeners p))
     | Throws => tr = []
     end.
Proof.
  unfold serialize_in.
  destruct (serialize_in_impl ins ctx (derived p)) as [[[r is1] ctx1] d1].
  destruct r as [ok |]; [| done].
  pose proof (post_trace h data_modified (set_derived d1 p)) as Htr.
  pose proof (post_frame h data_modified (set_derived d1 p)) as [_ Hd].
  destruct (post_cproperty_event h data_modified (set_derived d1 p)) as [p1 tr].
  simpl in *. by subst.
Qed.

(** One operation never sets the flag. *)
Lemma step_keeps_flag_cleared h (st : node_state CSystemSerCtx D) (op : operation Gui) :
  is_skippable_in_serialization (st_prop st) = false ->
  is_skippable_in_serialization (st_prop (step h st op)) = false.
Proof.
  intros Hf. destruct op as [ins | os | gui label editable | gui label | l | l | evt]; simpl.
  - pose proof (serialize_in_flag h ins (st_ctx st) (st_prop st)) as Hs.
    destruct (serialize_in _ _ _ _) as [[[[r is1] ctx1] p1] tr].
    unfold is_skippable_in_serialization in *.
    destruct r; simpl; congruence.
  - by destruct (serialize_out _ _ _) as [[r os1] ctx1].
  - unfold imgui_widget.
    destruct (imgui_widget_impl _ _ _ _) as [[[|]|] d1]; simpl; try done.
    pose proof (post_data_modified_clears h (set_derived d1 (st_prop st))) as Hc.
    by destruct (post_cproperty_event _ _ _).
  - unfold imgui_widget_const, imgui_widget.
    destruct (imgui_widget_impl _ _ _ _) as [[[|]|] d1]; simpl; try done.
    pose proof (post_data_modified_clears h (set_derived d1 (st_prop st))) as Hc.
    by destruct (post_cproperty_event _ _ _).
  - done.
  - done.
  - destruct evt.
    pose proof (post_data_modified_clears h (st_prop st)) as Hc.
    by destruct (post_cproperty_event _ _ _).
Qed.

(** C6: once [is_skippable_in_serialization()] is [false], it is [false]
    after any sequence of [serialize_in], [serialize_out], widget calls,
    [add_listener], [remove_listener] and event posts. *)
Theorem skippable_never_reverts h (ops : list (operation Gui))
    (st : node_state CSystemSerCtx D) :
  is_skippable_in_serialization (st_prop st) = false ->
  is_skippable_in_serialization (st_prop (run h ops st)) = false.
Proof.
  revert st. induction ops as [| op ops IH]; intros st Hf; [done |].
  simpl. apply IH. by apply step_keeps_flag_cleared.
Qed.

(** C9: [add_listener] and [remove_listener] change [m_listeners] and
    nothing else: the kind, the skippable flag and the subclass's members
    are the same, the serialisation context is the same and no listener
    is called.  After [add_listener l] the set is the old one with [l];
    after [remove_listener l] it is the old one without [l]. *)
Theorem listener_registration_frame h (st : node_state CSystemSerCtx D) (l : listener_ptr) :
  let a := step (Gui := Gui) h st (op_add_listener l) in
  let r := step (Gui := Gui) h st (op_remove_listener l) in
  (same_but_listeners (st_prop st) (st_prop a)
   /\ st_trace a = st_trace st /\ st_ctx a = st_ctx st
   /\ forall x, x ∈ m_listeners (st_prop a) <-> x = l \/ x ∈ m_listeners (st_prop st))
  /\ (same_but_listeners (st_prop st) (st_prop r)
      /\ st_trace r = st_trace st /\ st_ctx r = st_ctx st
      /\ forall x, x ∈ m_listeners (st_prop r) <-> x ∈ m_listeners (st_prop st) /\ x <> l).
Proof.
  simpl. unfold same_but_listeners. repeat split; simpl; try done.
  - rewrite elem_of_union, elem_of_singleton. tauto.
  - rewrite elem_of_union, elem_of_singleton. tauto.
  - rewrite elem_of_difference, elem_of_singleton in *. tauto.
  - rewrite elem_of_difference, elem_of_singleton in *. tauto.
  - rewrite elem_of_difference, elem_of_singleton. tauto.
Qed.

End Notification.

(** * [std::ostream::write] without and with a fault *)

Lemma write_no_fault (buf : list byte) (os : ostream.t) :
  out_faults (length buf) os = false ->
  ostream.write buf os
  = ostream.mk (ostream.os_data os ++ buf) (ostream.os_capacity os) (ostream.rdstate os).
Proof.
  unfold out_faults, ostream.write, ostream.sputn. intros H.
  apply orb_false_elim in H as [Hg Hr]. apply negb_false_iff in Hg. rewrite Hg.
  destruct (ostream.room os) as [r |].
  - apply Nat.ltb_ge in Hr. replace (length buf `min` r) with (length buf) by lia.
    rewrite Nat.ltb_irrefl, firstn_all. done.
  - rewrite Nat.ltb_irrefl, firstn_all. done.
Qed.

Lemma emitted_app (os : ostream.t) (buf : list byte) c st :
  emitted os (ostream.mk (ostream.os_data os ++ buf) c st) = buf.
Proof. unfold emitted; simpl. apply drop_app_length. Qed.

(** What [write] appends depends on the stream only through its state
    flags and the room its device has left. *)
Lemma write_emitted_same (buf : list byte) (os os' : ostream.t) :
  ostream.room os = ostream.room os' ->
  ostream.rdstate os = ostream.rdstate os' ->
  emitted os (ostream.write buf os) = emitted os' (ostream.write buf os').
Proof.
  intros Hr Hs. unfold ostream.write, ostream.sputn, ostream.good.
  rewrite <- Hr, <- Hs.
  destruct (ios.good (ostream.rdstate os)).
  - destruct (_ <? _); unfold emitted; simpl; by rewrite !drop_app_length.
  - unfold emitted; simpl. by rewrite !drop_all.
Qed.

(** * [CUnknownProperty]: loading and saving *)

Section UnknownFacts.

Context {CSystemSerCtx Gui CSysName : Type}.

Implicit Types
  (h : listener_ptr -> CProperty (CUnknownProperty_members CSysName) -> EPropertyEvent
       -> list listener_call)
  (ins : istream.t) (os : ostream.t) (serctx : CSystemSerCtx)
  (self : CUnknownProperty_members CSysName)
  (p : CProperty (CUnknownProperty_members CSysName)).

(** [serialize_in_impl] never throws on a stream of representable
    extent, and returns [true] exactly when the stream did not fault. *)
Lemma unknown_in_result ins serctx self :
  extent_ok ins ->
  (CUnknownProperty_serialize_in_impl ins serctx self).1.1.1
  = Returns (negb (in_faults ins)).
Proof.
  intros Hx. unfold in_faults.
  destruct (istream.good ins) eqn:Hg; simpl.
  - destruct (streambuf.sb_seekable (istream.rdbuf ins)) eqn:Hs; simpl.
    + destruct (unknown_in_good ins serctx self Hg Hs Hx) as (buf & _ & ->). done.
    + destruct (unknown_in_unusable ins serctx self (or_intror Hs)) as (st & _ & ->). done.
  - destruct (unknown_in_unusable ins serctx self (or_introl Hg)) as (st & _ & ->). done.
Qed.

(** Without a fault, [m_data] ends up holding the pending bytes, whatever
    it held before. *)
Lemma unknown_in_data ins serctx self :
  extent_ok ins ->
  in_faults ins = false ->
  m_data (CUnknownProperty_serialize_in_impl ins serctx self).2
  = streambuf.sb_pending (istream.rdbuf ins).
Proof.
  intros Hx Hf. unfold in_faults in Hf.
  apply orb_false_elim in Hf as [Hf Hk]. apply orb_false_elim in Hf as [Hg Hs].
  apply negb_false_iff in Hg, Hs. apply Nat.ltb_ge in Hk.
  destruct (unknown_in_good ins serctx self Hg Hs Hx) as (buf & Hlen & ->). simpl.
  pose proof (deliverable_le (istream.rdbuf ins)).
  rewrite firstn_all2 by lia. apply store_all. done.
Qed.

(** [serialize_out] returns [true] whatever happens to the stream. *)
Lemma unknown_out_result os serctx self :
  (CUnknownProperty_serialize_out os serctx self).1.1 = Returns true.
Proof. reflexivity. Qed.

(** C1: a [CUnknownProperty] that ran [serialize_in] on a stream with [b]
    between the get position and the end, and is then asked to
    [serialize_out], writes exactly [b]; [b] may be empty.  The input
    stream is one that does not fault and the output stream one that
    accepts [length b] bytes. *)
Theorem unknown_roundtrip h ins serctx p os :
  let b := streambuf.sb_pending (istream.rdbuf ins) in
  in_faults ins = false ->
  extent_ok ins ->
  out_faults (length b) os = false ->
  let '(r, _, serctx1, p1, _) := serialize_in (Gui := Gui) h ins serctx p in
  let '(r', os', _) := serialize_out (Gui := Gui) os serctx1 (derived p1) in
  r = Returns true /\ r' = Returns true
  /\ raw_data (derived p1) = b
  /\ ostream.os_data os' = ostream.os_data os ++ b
  /\ emitted os os' = b.
Proof.
  intros b Hf Hx Ho.
  pose proof (serialize_in_result_and_trace (Gui := Gui) h ins serctx p) as Hin.
  simpl in Hin.
  pose proof (unknown_in_result ins serctx (derived p) Hx) as Hr.
  pose proof (unknown_in_data ins serctx (derived p) Hx Hf) as Hd.
  destruct (CUnknownProperty_serialize_in_impl ins serctx (derived p))
    as [[[r0 is0] ctx0] d0].
  destruct (serialize_in h ins serctx p) as [[[[r is1] ctx1] p1] tr].
  destruct Hin as (-> & -> & -> & Hp1 & _). simpl in *.
  rewrite Hf in Hr. rewrite Hp1. unfold raw_data. rewrite Hd.
  rewrite write_no_fault by done. rewrite emitted_app. done.
Qed.

(** C7: two consecutive [serialize_out] calls on a [CUnknownProperty]
    emit the same bytes.  [serialize_out] is const and only reads
    [m_data]: the node and the context are the same after the call as
    before; on a stream that takes them both calls append exactly
    [m_data], and in general what a call appends is the same on any two
    streams with the same state flags and the same room. *)
Theorem unknown_serialize_out_idempotent os serctx self :
  out_faults (length (m_data self) + length (m_data self)) os = false ->
  let '(r1, os1, serctx1) := CUnknownProperty_serialize_out os serctx self in
  let '(r2, os2, _) := CUnknownProperty_serialize_out os1 serctx1 self in
  r1 = Returns true /\ r2 = Returns true
  /\ emitted os os1 = m_data self
  /\ emitted os1 os2 = m_data self
  /\ (forall h (st : node_state CSystemSerCtx (CUnknownProperty_members CSysName)),
        step (Gui := Gui) h st (op_serialize_out os) = st)
  /\ forall os' serctx',
       ostream.room os' = ostream.room os ->
       ostream.rdstate os' = ostream.rdstate os ->
       emitted os' (CUnknownProperty_serialize_out os' serctx' self).1.2
       = emitted os os1.
Proof.
  intros Ho. unfold CUnknownProperty_serialize_out.
  assert (out_faults (length (m_data self)) os = false) as Ho1.
  { unfold out_faults in *. apply orb_false_elim in Ho as [-> Hr]. simpl.
    destruct (ostream.room os); [| done].
    apply Nat.ltb_ge in Hr. apply Nat.ltb_ge. lia. }
  rewrite (write_no_fault _ os Ho1).
  assert (out_faults (length (m_data self))
            (ostream.mk (ostream.os_data os ++ m_data self) (ostream.os_capacity os)
               (ostream.rdstate os)) = false) as Ho2.
  { unfold out_faults, ostream.room, ostream.good in *. simpl.
    apply orb_false_elim in Ho as [-> Hr]. simpl.
    destruct (ostream.os_capacity os); [| done].
    apply Nat.ltb_ge in Hr. apply Nat.ltb_ge. rewrite length_app. lia. }
  rewrite (write_no_fault _ _ Ho2). simpl.
  repeat split.
  - apply emitted_app.
  - apply (emitted_app (ostream.mk (ostream.os_data os ++ m_data self) _ _)).
  - intros h st. by destruct st.
  - intros os' serctx' Hr Hs. simpl.
    rewrite (write_emitted_same _ os' os Hr Hs), (write_no_fault _ os Ho1).
    reflexivity.
Qed.

End UnknownFacts.

(** * Both halves of the load contract *)

(** C5: for every kind, [serialize_in] returns exactly what
    [serialize_in_impl] returned and, whether that was [true] or [false],
    has called every registered listener exactly once, with
    [data_modified] (when [serialize_in_impl] throws, [serialize_in] does
    not return and nobody is called).  For [CUnknownProperty] the result
    on an input that faults, such as a stream cut short of the end it
    reports, is [false]. *)
Theorem serialize_in_posts_once_and_returns_impl_result :
  (forall (CSystemSerCtx Gui CSysName D : Type)
          (impl : CPropertyImpl CSystemSerCtx Gui CSysName D)
          (h : listener_ptr -> CProperty D -> EPropertyEvent -> list listener_call)
          (ins : istream.t) (ctx : CSystemSerCtx) (p : CProperty D),
     let '(r0, _, _, _) := serialize_in_impl ins ctx (derived p) in
     let '(r, _, _, _, tr) := serialize_in h ins ctx p in
     r = r0
     /\ match r0 with
        | Returns _ =>
            map d_listener tr = set_iteration (m_listeners p)
            /\ NoDup (map d_listener tr)
            /\ Forall (fun d => d_event d = data_modified) tr
        | Throws => tr = []
        end)
  /\ (forall (CSystemSerCtx Gui CSysName : Type)
             (h : listener_ptr -> CProperty (CUnknownProperty_members CSysName) -> EPropertyEvent
                  -> list listener_call)
             (ins : istream.t) (ctx : CSystemSerCtx)
             (p : CProperty (CUnknownProperty_members CSysName)),
        extent_ok ins ->
        in_faults ins = true ->
        (serialize_in (Gui := Gui) h ins ctx p).1.1.1.1 = Returns false).
Proof.
  split.
  - intros CSystemSerCtx Gui CSysName D impl h ins ctx p.
    pose proof (serialize_in_result_and_trace h ins ctx p) as Hin.
    destruct (serialize_in_impl ins ctx (derived p)) as [[[r0 is0] ctx0] d0].
    destruct (serialize_in h ins ctx p) as [[[[r is1] ctx1] p1] tr].
    destruct Hin as (-> & _ & _ & _ & Htr). split; [done |].
    destruct r0 as [ok |]; [| done]. subst tr.
    rewrite map_map; simpl. rewrite map_id. repeat split.
    + apply NoDup_set_iteration.
    + apply List.Forall_map, Forall_true. done.
  - intros CSystemSerCtx Gui CSysName h ins ctx p Hx Hf.
    pose proof (serialize_in_result_and_trace (Gui := Gui) h ins ctx p) as Hin.
    simpl in Hin.
    pose proof (unknown_in_result ins ctx (derived p) Hx) as Hr.
    destruct (CUnknownProperty_serialize_in_impl ins ctx (derived p))
      as [[[r0 is0] ctx0] d0].
    destruct (serialize_in h ins ctx p) as [[[[r is1] ctx1] p1] tr].
    destruct Hin as (-> & _). simpl in *. by rewrite Hf in Hr.
Qed.

(** C4: [CUnknownProperty::serialize_in] returns [true] exactly when the
    input stream did not fault (see [unknown_in_result]), but
    [serialize_out] returns [true] although the write faulted: on a
    device with room for one byte, a two-byte [m_data] is cut after the
    first byte, the stream has badbit set, and the call reports
    success. *)
Theorem unknown_serialize_out_hides_write_fault :
  let os := ostream.mk [] (Some 1) ios.goodbit in
  let self := mk_CUnknownProperty tt [x01; x02] in
  out_faults (length (m_data self)) os = true
  /\ CUnknownProperty_serialize_out os tt self
     = (Returns true, ostream.mk [x01] (Some 1) (ios.mk_iostate false false true), tt).
Proof. split; reflexivity. Qed.

(** * Concrete runs *)

(** C2, as stated, fails: a fresh [CUnknownProperty] loads two bytes
    from a good stream, [serialize_in] returns [true], and
    [is_skippable_in_serialization()] is [false] afterwards. *)
Lemma skippable_is_false_after_successful_load :
  let '(r, _, _, p', _) :=
    serialize_in (Gui := unit) onlookers (istream_over [] [x01; x02]) tt
      (CUnknownProperty_ctor tt) in
  r = Returns true
  /\ raw_data (derived p') = [x01; x02]
  /\ is_skippable_in_serialization p' = false.
Proof. vm_compute. repeat split. Qed.

(** C3, as stated, fails: a fresh [CUnknownProperty] with one listener
    loads a byte; the listener is called with [data_modified] and reads
    [is_skippable_in_serialization() == true] inside its callback. *)
Lemma listener_sees_skippable_true :
  let p := add_listener 1%N (CUnknownProperty_ctor tt) in
  let tr := (serialize_in (Gui := unit) onlookers (istream_over [] [x01]) tt p).2 in
  tr = [mk_delivery 1%N data_modified true]
  /\ (post_cproperty_event onlookers data_modified p).2 = tr
  /\ ~ Forall (fun d => d_skippable_seen d = false) tr.
Proof.
  vm_compute. split; [reflexivity | split; [reflexivity |]].
  intros H. inversion H as [| d l Hd _]. discriminate Hd.
Qed.

(** A listener that unregisters itself and listener 2 and registers
    listener 9 while the event is in flight: 1, 2 and 3 are called all
    the same, 9 is not, and the set afterwards is [{3, 9}]. *)
Example snapshot_with_meddler :
  let p := add_listener 3%N (add_listener 2%N (add_listener 1%N
             (CUnknownProperty_ctor tt))) in
  let '(p', tr) := post_cproperty_event meddler data_modified p in
  map d_listener tr = [1%N; 2%N; 3%N]
  /\ set_iteration (m_listeners p') = [3%N; 9%N].
Proof. vm_compute. split; reflexivity. Qed.

(** The empty byte sequence round-trips: a stream at its end, in good
    state, loads as an empty buffer and [serialize_in] returns [true]. *)
Example roundtrip_empty :
  let '(r, _, _, p', _) :=
    serialize_in (Gui := unit) onlookers (istream_over [x07] []) tt
      (CUnknownProperty_ctor tt) in
  r = Returns true
  /\ serialize_out (Gui := unit) ostream_empty tt (derived p')
     = (Returns true, ostream_empty, tt).
Proof. vm_compute. split; reflexivity. Qed.

(** The three ways an input stream can fault, each giving [false]. *)
Example load_faults :
  let self := mk_CUnknownProperty tt [x09] in
  let run_on ins := (CUnknownProperty_serialize_in_impl ins tt self).1.1.1 in
  run_on (istream.mk (streambuf.mk [] [x01; x02] true None)
            (ios.mk_iostate true false false)) = Returns false
  /\ run_on (istream.mk (streambuf.mk [] [x01; x02] false None) ios.goodbit)
     = Returns false
  /\ run_on (istream.mk (streambuf.mk [] [x01; x02] true (Some 1)) ios.goodbit)
     = Returns false.
Proof. vm_compute. repeat split. Qed.

(** A stream over the repository's own [vector_streambuf] cannot seek:
    [serialize_in_impl] measures a size of [0], reads nothing and
    returns [false]. *)
Example load_from_vector_streambuf :
  CUnknownProperty_serialize_in_impl
    (istream.mk (vector_streambuf [x01; x02]) ios.goodbit) tt (mk_CUnknownProperty tt [])
  = (Returns false,
     istream.mk (vector_streambuf [x01; x02]) (ios.mk_iostate false true false), tt,
     mk_CUnknownProperty tt []).
Proof. vm_compute. reflexivity. Qed.

(** The round trip on three bytes that follow one consumed byte. *)
Lemma unknown_roundtrip_witness :
  let ins := istream_over [x07] [x01; x02; x03] in
  in_faults ins = false /\ extent_ok ins
  /\ out_faults 3 ostream_empty = false
  /\ let '(r, _, serctx1, p1, _) :=
       serialize_in (Gui := unit) onlookers ins tt (CUnknownProperty_ctor tt) in
     let '(r', os', _) := serialize_out (Gui := unit) ostream_empty serctx1 (derived p1) in
     r = Returns true /\ r' = Returns true
     /\ raw_data (derived p1) = [x01; x02; x03]
     /\ ostream.os_data os' = [] ++ [x01; x02; x03]
     /\ emitted ostream_empty os' = [x01; x02; x03].
Proof.
  refine (conj eq_refl (conj _ (conj eq_refl _))).
  - reflexivity.
  - apply (unknown_roundtrip (Gui := unit) onlookers
             (istream_over [x07] [x01; x02; x03]) tt (CUnknownProperty_ctor tt)
             ostream_empty); reflexivity.
Defined.

(** A two-byte region of which the device delivers one byte. *)
Lemma serialize_in_posts_once_witness :
  let ins := istream.mk (streambuf.mk [] [x01; x02] true (Some 1)) ios.goodbit in
  extent_ok ins /\ in_faults ins = true
  /\ (serialize_in (Gui := unit) onlookers ins tt (CUnknownProperty_ctor tt)).1.1.1.1
     = Returns false.
Proof.
  refine (conj _ (conj eq_refl _)).
  - reflexivity.
  - apply (proj2 serialize_in_posts_once_and_returns_impl_result); reflexivity.
Defined.

(** Two saves of a two-byte buffer into an unbounded stream. *)
Lemma unknown_serialize_out_idempotent_witness :
  let self := mk_CUnknownProperty tt [x01; x02] in
  out_faults (2 + 2) ostream_empty = false
  /\ let '(r1, os1, serctx1) := CUnknownProperty_serialize_out ostream_empty tt self in
     let '(r2, os2, _) := CUnknownProperty_serialize_out os1 serctx1 self in
     r1 = Returns true /\ r2 = Returns true
     /\ emitted ostream_empty os1 = [x01; x02]
     /\ emitted os1 os2 = [x01; x02]
     /\ (forall h (st : node_state unit (CUnknownProperty_members unit)),
           step (Gui := unit) h st (op_serialize_out ostream_empty) = st)
     /\ forall os' (serctx' : unit),
          ostream.room os' = ostream.room ostream_empty ->
          ostream.rdstate os' = ostream.rdstate ostream_empty ->
          emitted os' (CUnknownProperty_serialize_out os' serctx' self).1.2
          = emitted ostream_empty os1.
Proof.
  refine (conj eq_refl _).
  apply (unknown_serialize_out_idempotent (Gui := unit) ostream_empty tt
           (mk_CUnknownProperty tt [x01; x02])); reflexivity.
Defined.

(** Two listeners, one click on an editable widget. *)
Lemma imgui_widget_broadcast_witness :
  let p := add_listener 2%N (add_listener 1%N (CProperty_ctor EPropertyKind.Bool false)) in
  imgui_widget_impl (CPropertyImpl := toggle_kind) true "flag" true (derived p)
  = (Returns true, true)
  /\ let '(r, _, tr) := imgui_widget (impl := toggle_kind) onlookers true "flag" true p in
     r = Returns true
     /\ map d_listener tr = set_iteration (m_listeners p)
     /\ Forall (fun d => d_event d = data_modified) tr
     /\ (forall l, l ∈ m_listeners p -> l ∈ map d_listener tr).
Proof.
  refine (conj eq_refl _).
  apply (imgui_widget_broadcast (impl := toggle_kind) onlookers true "flag" true
           (add_listener 2%N (add_listener 1%N (CProperty_ctor EPropertyKind.Bool false)))
           true); reflexivity.
Defined.

(** A loaded node, then one of each operation. *)
Lemma skippable_never_reverts_witness :
  let st0 :=
    step (Gui := unit) onlookers
      (mk_node_state tt (CUnknownProperty_ctor tt) [])
      (op_serialize_in (istream_over [] [x01])) in
  let ops :=
    [op_add_listener 1%N; op_serialize_out ostream_empty;
     op_serialize_in (istream_over [] [x02; x03]); op_imgui_widget tt "raw" true;
     op_imgui_widget_const tt "raw"; op_remove_listener 1%N;
     op_post_cproperty_event data_modified] in
  is_skippable_in_serialization (st_prop st0) = false
  /\ is_skippable_in_serialization (st_prop (run onlookers ops st0)) = false.
Proof.
  refine (conj eq_refl _).
  apply (skippable_never_reverts (Gui := unit) onlookers); reflexivity.
Defined.

(** * More of [CPropertyBase.hpp] *)

Section MoreNotification.

Context {CSystemSerCtx Gui CSysName D : Type}.
Context `{impl : !CPropertyImpl CSystemSerCtx Gui CSysName D}.

Implicit Types (h : listener_ptr -> CProperty D -> EPropertyEvent -> list listener_call)
  (p : CProperty D) (evt : EPropertyEvent).

Lemma step_keeps_kind h (st : node_state CSystemSerCtx D) (op : operation Gui) :
  kind (st_prop (step h st op)) = kind (st_prop st).
Proof.
  unfold kind.
  destruct op as [ins | os | gui label editable | gui label | l | l | evt]; simpl.
  - unfold serialize_in.
    destruct (serialize_in_impl _ _ _) as [[[[ok |] is1] ctx1] d1]; simpl; [| done].
    pose proof (post_frame h data_modified (set_derived d1 (st_prop st))) as [Hk _].
    by destruct (post_cproperty_event _ _ _).
  - by destruct (serialize_out _ _ _) as [[r os1] ctx1].
  - unfold imgui_widget.
    destruct (imgui_widget_impl _ _ _ _) as [[[|]|] d1]; simpl; try done.
    pose proof (post_frame h data_modified (set_derived d1 (st_prop st))) as [Hk _].
    by destruct (post_cproperty_event _ _ _).
  - unfold imgui_widget_const, imgui_widget.
    destruct (imgui_widget_impl _ _ _ _) as [[[|]|] d1]; simpl; try done.
    pose proof (post_frame h data_modified (set_derived d1 (st_prop st))) as [Hk _].
    by destruct (post_cproperty_event _ _ _).
  - done.
  - done.
  - pose proof (post_frame h evt (st_prop st)) as [Hk _].
    by destruct (post_cproperty_event _ _ _).
Qed.

(** X1: the kind given to the constructor is the kind for good: no
    sequence of loads, saves, widget calls, registrations and event
    posts, and nothing a listener does from a callback, changes what
    [kind()] returns. *)
Theorem kind_never_changes h (ops : list (operation Gui))
    (st : node_state CSystemSerCtx D) :
  kind (st_prop (run h ops st)) = kind (st_prop st).
Proof.
  revert st. induction ops as [| op ops IH]; intros st; [done |].
  simpl. rewrite IH. apply step_keeps_kind.
Qed.

(** X2: registering a listener twice is registering it once, and an
    unregistered listener is not called: an event posted after
    [add_listener l] (once or twice) calls [l] exactly once, and an event
    posted after [remove_listener l] does not call [l]. *)
Theorem registration_decides_who_is_called h evt p (l : listener_ptr) :
  let called q := map d_listener (post_cproperty_event h evt q).2 in
  add_listener l (add_listener l p) = add_listener l p
  /\ l ∈ called (add_listener l p)
  /\ NoDup (called (add_listener l p))
  /\ ~ (l ∈ called (remove_listener l p))
  /\ (forall x, x <> l -> (x ∈ called (add_listener l p) <-> x ∈ called p))
  /\ (forall x, x <> l -> (x ∈ called (remove_listener l p) <-> x ∈ called p)).
Proof.
  simpl. rewrite !post_listeners_called.
  split; [| split; [| split; [| split; [| split]]]].
  - unfold add_listener; simpl. f_equal.
    by rewrite (assoc_L (∪)), (idemp_L (∪)).
  - apply elem_of_set_iteration. unfold add_listener; simpl.
    apply elem_of_union_l, elem_of_singleton. reflexivity.
  - apply NoDup_set_iteration.
  - rewrite elem_of_set_iteration. unfold remove_listener; simpl.
    rewrite elem_of_difference, elem_of_singleton. tauto.
  - intros x Hx. rewrite !elem_of_set_iteration. unfold add_listener; simpl.
    rewrite elem_of_union, elem_of_singleton. tauto.
  - intros x Hx. rewrite !elem_of_set_iteration. unfold remove_listener; simpl.
    rewrite elem_of_difference, elem_of_singleton. tauto.
Qed.

End MoreNotification.

(** X3: [property_kind_to_display_name] has no name for [TweakDBID],
    [CName] and [NodeRef]: these three, and only these, are displayed as
    "Invalid"; every other kind has a name of its own. *)
Theorem display_name_invalid_iff (k : EPropertyKind.t) :
  (property_kind_to_display_name k = "Invalid"
   <-> k = EPropertyKind.TweakDBID \/ k = EPropertyKind.CName \/ k = EPropertyKind.NodeRef)
  /\ (forall k', property_kind_to_display_name k = property_kind_to_display_name k' ->
        property_kind_to_display_name k <> "Invalid" -> k = k').
Proof.
  split.
  - split.
    + destruct k; simpl; intros H; try discriminate H; tauto.
    + intros [-> | [-> | ->]]; reflexivity.
  - intros k' Heq Hne. destruct k, k'; simpl in *; try reflexivity;
      try discriminate Heq; by destruct Hne.
Qed.

(** * More of [CUnknownProperty] *)

Section MoreUnknown.

Context {CSystemSerCtx Gui CSysName : Type}.

Implicit Types
  (h : listener_ptr -> CProperty (CUnknownProperty_members CSysName) -> EPropertyEvent
       -> list listener_call)
  (ins : istream.t) (os : ostream.t) (serctx : CSystemSerCtx)
  (self : CUnknownProperty_members CSysName).

(** X4: what [serialize_out] wrote, [serialize_in_impl] reads back: the
    bytes saved by one [CUnknownProperty] into a stream that takes them,
    offered as the pending bytes of a stream that does not fault, leave
    any other [CUnknownProperty] with the same [raw_data()], whatever it
    held before, and with its own type name. *)
Theorem unknown_save_then_load os serctx self
    (other : CUnknownProperty_members CSysName) (before : list byte) bad :
  out_faults (length (m_data self)) os = false ->
  let saved := emitted os (CUnknownProperty_serialize_out os serctx self).1.2 in
  let ins := istream.mk (streambuf.mk before saved true bad) ios.goodbit in
  in_faults ins = false ->
  extent_ok ins ->
  let '(r, _, _, loaded) := CUnknownProperty_serialize_in_impl ins serctx other in
  r = Returns true
  /\ raw_data loaded = raw_data self
  /\ m_ctypename loaded = m_ctypename other.
Proof.
  intros Ho saved ins Hf Hx.
  assert (saved = m_data self) as Hsaved.
  { unfold saved, CUnknownProperty_serialize_out; simpl.
    rewrite write_no_fault by done. apply emitted_app. }
  pose proof (unknown_in_result ins serctx other Hx) as Hr.
  pose proof (unknown_in_data ins serctx other Hx Hf) as Hd.
  rewrite Hf in Hr.
  assert (m_ctypename (CUnknownProperty_serialize_in_impl ins serctx other).2
          = m_ctypename other) as Hn.
  { unfold in_faults in Hf.
    apply orb_false_elim in Hf as [Hf _]. apply orb_false_elim in Hf as [Hg Hs].
    apply negb_false_iff in Hg, Hs.
    by destruct (unknown_in_good ins serctx other Hg Hs Hx) as (buf & _ & ->). }
  destruct (CUnknownProperty_serialize_in_impl ins serctx other) as [[[r is1] ctx1] d1].
  simpl in *. unfold raw_data. rewrite Hd, <- Hsaved. done.
Qed.

(** X5: a load that cannot measure the stream empties the buffer.  On a
    stream that is not good on entry, or whose device cannot seek, both
    [tellg] calls give [-1], so the size is [0]: [m_data] is resized to
    nothing, whatever it held, no byte is taken from the stream buffer,
    and the result is [false]; the stream is left with failbit set and
    eofbit cleared (by [seekg]). *)
Theorem unknown_failed_load_empties_buffer ins serctx self :
  istream.good ins = false \/ streambuf.sb_seekable (istream.rdbuf ins) = false ->
  CUnknownProperty_serialize_in_impl ins serctx self
  = (Returns false,
     istream.mk (istream.rdbuf ins)
       (ios.mk_iostate false true (ios.badbit (istream.rdstate ins))),
     serctx,
     mk_CUnknownProperty (m_ctypename self) []).
Proof.
  intros H.
  destruct ins as [[c q sk bf] [e f b]].
  unfold istream.good, ios.good in H; simpl in H.
  destruct (e || f || b) eqn:Hefb.
  - destruct e, f, b; try discriminate Hefb; vm_compute; reflexivity.
  - destruct H as [H | ->]; [done |].
    destruct e, f, b; try discriminate Hefb. vm_compute; reflexivity.
Qed.

(** X6: a short read leaves a buffer of the measured size.  On a good,
    seekable stream whose device stops after [k] of the [n] pending
    bytes, the result is [false] with failbit and eofbit set, the get
    position has advanced by [k], and [m_data] has length [n] and starts
    with the [k] bytes that were delivered. *)
Theorem unknown_short_read ins serctx self :
  let sb := istream.rdbuf ins in
  let n := length (streambuf.sb_pending sb) in
  let k := streambuf.deliverable sb in
  istream.good ins = true ->
  streambuf.sb_seekable sb = true ->
  extent_ok ins ->
  k < n ->
  let '(r, ins', _, self') := CUnknownProperty_serialize_in_impl ins serctx self in
  r = Returns false
  /\ length (raw_data self') = n
  /\ take k (raw_data self') = take k (streambuf.sb_pending sb)
  /\ streambuf.sb_consumed (istream.rdbuf ins')
     = streambuf.sb_consumed sb ++ take k (streambuf.sb_pending sb)
  /\ ios.failbit (istream.rdstate ins') = true
  /\ ios.eofbit (istream.rdstate ins') = true.
Proof.
  intros sb n k Hg Hs Hx Hk.
  destruct (unknown_in_good ins serctx self Hg Hs Hx) as (buf & Hlen & ->).
  change (length (streambuf.sb_pending (istream.rdbuf ins))) with n in *.
  change (streambuf.deliverable (istream.rdbuf ins)) with k.
  change (istream.rdbuf ins) with sb.
  assert ((k <? n) = true) as -> by (apply Nat.ltb_lt; lia).
  assert (length (take k (streambuf.sb_pending sb)) = k) as Hlk
    by (rewrite length_take; fold n; lia).
  unfold raw_data, vector.store; simpl. repeat split.
  - rewrite length_app, length_drop, Hlk. lia.
  - rewrite take_app_le by lia. rewrite take_ge by lia. done.
Qed.

(** X7: a load takes everything.  After a load without fault the get
    position is at the end of the stream and the stream is still good
    (eofbit is not set, since no read went past the end), so a second
    [CUnknownProperty] loading from the same stream succeeds too, with
    an empty buffer. *)
Theorem unknown_load_consumes_all ins serctx self (other : CUnknownProperty_members CSysName) :
  in_faults ins = false ->
  extent_ok ins ->
  let '(_, ins', serctx', _) := CUnknownProperty_serialize_in_impl ins serctx self in
  streambuf.sb_pending (istream.rdbuf ins') = []
  /\ streambuf.sb_consumed (istream.rdbuf ins')
     = streambuf.sb_consumed (istream.rdbuf ins) ++ streambuf.sb_pending (istream.rdbuf ins)
  /\ istream.good ins' = true
  /\ let '(r2, _, _, other') := CUnknownProperty_serialize_in_impl ins' serctx' other in
     r2 = Returns true /\ raw_data other' = [].
Proof.
  intros Hf Hx. unfold in_faults in Hf.
  apply orb_false_elim in Hf as [Hf Hk]. apply orb_false_elim in Hf as [Hg Hs].
  apply negb_false_iff in Hg, Hs. apply Nat.ltb_ge in Hk.
  destruct (unknown_in_good ins serctx self Hg Hs Hx) as (buf & Hlen & ->).
  pose proof (deliverable_le (istream.rdbuf ins)) as Hle.
  assert (streambuf.deliverable (istream.rdbuf ins)
          = length (streambuf.sb_pending (istream.rdbuf ins))) as -> by lia.
  rewrite Nat.ltb_irrefl, firstn_all, drop_all.
  set (ins' := istream.mk _ _).
  assert (in_faults ins' = false) as Hf'.
  { unfold in_faults, ins', istream.good, streambuf.deliverable; simpl.
    unfold istream.good in Hg. rewrite Hg, Hs. simpl.
    by destruct (streambuf.sb_bad_from _). }
  assert (extent_ok ins') as Hx'.
  { unfold extent_ok, streambuf.extent, ins' in *; simpl.
    rewrite length_app. simpl. lia. }
  pose proof (unknown_in_result ins' serctx other Hx') as Hr.
  pose proof (unknown_in_data ins' serctx other Hx' Hf') as Hd.
  rewrite Hf' in Hr.
  destruct (CUnknownProperty_serialize_in_impl ins' serctx other) as [[[r2 is2] ctx2] d2].
  simpl in *. unfold raw_data. rewrite Hd. done.
Qed.

(** X8: showing, saving and (un)registering never dirty a
    [CUnknownProperty] and never notify anybody.  Its widget reports no
    modification, so over any sequence of operations that contains no
    load and no direct event post, the skippable flag, the buffer and
    the callbacks made so far are the same at the end as at the start:
    a freshly constructed [CUnknownProperty] stays skippable. *)
Theorem unknown_quiet_operations h (ops : list (operation Gui))
    (st : node_state CSystemSerCtx (CUnknownProperty_members CSysName)) :
  forallb (fun op => negb (is_load_or_post op)) ops = true ->
  let st' := run h ops st in
  is_skippable_in_serialization (st_prop st') = is_skippable_in_serialization (st_prop st)
  /\ derived (st_prop st') = derived (st_prop st)
  /\ st_trace st' = st_trace st
  /\ st_ctx st' = st_ctx st.
Proof.
  revert st. induction ops as [| op ops IH]; intros st Hq; [done |].
  simpl in Hq. apply andb_true_iff in Hq as [Hop Hq].
  specialize (IH (step h st op) Hq). simpl in *.
  destruct IH as (-> & -> & -> & ->).
  destruct op as [? | ? | ? ? ? | ? ? | ? | ? | ?]; try discriminate Hop;
    destruct st as [ctx p tr]; simpl; rewrite ?app_nil_r; done.
Qed.

End MoreUnknown.

(** Three bytes saved into an empty stream and loaded by another node. *)
Lemma unknown_save_then_load_witness :
  let self := mk_CUnknownProperty tt [x0a; x0b; x0c] in
  let other := mk_CUnknownProperty tt [x01] in
  let ins := istream_over [] [x0a; x0b; x0c] in
  out_faults 3 ostream_empty = false
  /\ in_faults ins = false /\ extent_ok ins
  /\ let '(r, _, _, loaded) := CUnknownProperty_serialize_in_impl ins tt other in
     r = Returns true
     /\ raw_data loaded = raw_data self
     /\ m_ctypename loaded = m_ctypename other.
Proof.
  refine (conj eq_refl (conj eq_refl (conj _ _))).
  - reflexivity.
  - apply (unknown_save_then_load ostream_empty tt
             (mk_CUnknownProperty tt [x0a; x0b; x0c]) (mk_CUnknownProperty tt [x01])
             [] None); reflexivity.
Defined.

(** A stream over [vector_streambuf], which cannot seek. *)
Lemma unknown_failed_load_empties_buffer_witness :
  let ins := istream.mk (vector_streambuf [x01; x02]) ios.goodbit in
  (istream.good ins = false \/ streambuf.sb_seekable (istream.rdbuf ins) = false)
  /\ CUnknownProperty_serialize_in_impl ins tt (mk_CUnknownProperty tt [x09; x09])
     = (Returns false,
        istream.mk (istream.rdbuf ins)
          (ios.mk_iostate false true (ios.badbit (istream.rdstate ins))),
        tt, mk_CUnknownProperty tt []).
Proof.
  refine (conj (or_intror eq_refl) _).
  apply (unknown_failed_load_empties_buffer
           (istream.mk (vector_streambuf [x01; x02]) ios.goodbit) tt
           (mk_CUnknownProperty tt [x09; x09])).
  right. reflexivity.
Defined.

(** Three pending bytes of which the device delivers one. *)
Lemma unknown_short_read_witness :
  let ins := istream.mk (streambuf.mk [] [x01; x02; x03] true (Some 1)) ios.goodbit in
  istream.good ins = true /\ extent_ok ins /\ 1 < 3
  /\ let '(r, ins', _, self') :=
       CUnknownProperty_serialize_in_impl ins tt (mk_CUnknownProperty tt []) in
     r = Returns false
     /\ length (raw_data self') = 3
     /\ take 1 (raw_data self') = take 1 [x01; x02; x03]
     /\ streambuf.sb_consumed (istream.rdbuf ins') = [] ++ take 1 [x01; x02; x03]
     /\ ios.failbit (istream.rdstate ins') = true
     /\ ios.eofbit (istream.rdstate ins') = true.
Proof.
  refine (conj eq_refl (conj _ (conj _ _))).
  - reflexivity.
  - lia.
  - apply (unknown_short_read
             (istream.mk (streambuf.mk [] [x01; x02; x03] true (Some 1)) ios.goodbit) tt
             (mk_CUnknownProperty tt [])); try reflexivity.
    apply Nat.ltb_lt. reflexivity.
Defined.

(** Two nodes loading one after the other from the same stream. *)
Lemma unknown_load_consumes_all_witness :
  let ins := istream_over [x07] [x01; x02] in
  in_faults ins = false /\ extent_ok ins
  /\ let '(_, ins', serctx', _) :=
       CUnknownProperty_serialize_in_impl ins tt (mk_CUnknownProperty tt []) in
     streambuf.sb_pending (istream.rdbuf ins') = []
     /\ streambuf.sb_consumed (istream.rdbuf ins') = [x07] ++ [x01; x02]
     /\ istream.good ins' = true
     /\ let '(r2, _, _, other') :=
          CUnknownProperty_serialize_in_impl ins' serctx' (mk_CUnknownProperty tt [x05]) in
        r2 = Returns true /\ raw_data other' = [].
Proof.
  refine (conj eq_refl (conj _ _)).
  - reflexivity.
  - apply (unknown_load_consumes_all (istream_over [x07] [x01; x02]) tt
             (mk_CUnknownProperty tt []) (mk_CUnknownProperty tt [x05])); reflexivity.
Defined.

(** A fresh node shown, saved, watched and unwatched. *)
Lemma unknown_quiet_operations_witness :
  let ops :=
    [op_imgui_widget tt "raw" true; op_add_listener 4%N; op_imgui_widget_const tt "raw";
     op_serialize_out ostream_empty; op_remove_listener 4%N] in
  let st := mk_node_state tt (CUnknownProperty_ctor tt) [] in
  forallb (fun op => negb (is_load_or_post op)) ops = true
  /\ let st' := run onlookers ops st in
     is_skippable_in_serialization (st_prop st') = is_skippable_in_serialization (st_prop st)
     /\ derived (st_prop st') = derived (st_prop st)
     /\ st_trace st' = st_trace st
     /\ st_ctx st' = st_ctx st.
Proof.
  refine (conj eq_refl _).
  apply (unknown_quiet_operations (Gui := unit) onlookers); reflexivity.
Defined.

(** * [byteswap] *)

(** Two numbers below [2^n] with the same low [n] bits are equal. *)
Lemma bits_eq_below (n a b : Z) :
  (0 <= n)%Z -> (0 <= a < 2 ^ n)%Z -> (0 <= b < 2 ^ n)%Z ->
  (forall i, (0 <= i < n)%Z -> Z.testbit a i = Z.testbit b i) ->
  a = b.
Proof.
  intros Hn Ha Hb H.
  rewrite <- (Z.mod_small a (2 ^ n)), <- (Z.mod_small b (2 ^ n)) by lia.
  apply Z.bits_inj'. intros i Hi.
  destruct (Z.lt_ge_cases i n) as [Hlt | Hge].
  - rewrite !Z.mod_pow2_bits_low by lia. apply H. lia.
  - rewrite !Z.mod_pow2_bits_high by lia. reflexivity.
Qed.

(** Bit [i] of an expression made of shifts, masks and reductions, for a
    literal [i]: push [Z.testbit] to the variables, evaluate the indices
    and the bits of the literals, and decide the boolean equation. *)
Ltac testbit_push :=
  repeat match goal with
  | |- context [Z.testbit (Z.lor ?a ?b) ?m] => rewrite (Z.lor_spec a b m)
  | |- context [Z.testbit (Z.land ?a ?b) ?m] => rewrite (Z.land_spec a b m)
  | |- context [Z.testbit (Z.lxor ?a ?b) ?m] => rewrite (Z.lxor_spec a b m)
  | |- context [Z.testbit (?a mod 2 ^ ?n)%Z ?m] =>
      first [ rewrite (Z.mod_pow2_bits_low a n m) by lia
            | rewrite (Z.mod_pow2_bits_high a n m) by lia
            | rewrite (Z.testbit_neg_r (a mod 2 ^ n)%Z m) by lia ]
  | |- context [Z.testbit (Z.shiftl ?a ?n) ?m] =>
      first [ rewrite (Z.shiftl_spec a n m) by lia
            | rewrite (Z.testbit_neg_r (Z.shiftl a n) m) by lia ]
  | |- context [Z.testbit (Z.shiftr ?a ?n) ?m] =>
      first [ rewrite (Z.shiftr_spec a n m) by lia
            | rewrite (Z.testbit_neg_r (Z.shiftr a n) m) by lia ]
  end.

Ltac testbit_eval :=
  repeat match goal with
  | |- context [Z.testbit ?x ?e] =>
      lazymatch e with
      | Zpos _ => fail
      | Z0 => fail
      | Zneg _ => fail
      | _ => let e' := eval vm_compute in e in change e with e'
      end
  end;
  repeat match goal with
  | |- context [Z.testbit ?x (Zneg ?p)] =>
      rewrite (Z.testbit_neg_r x (Zneg p)) by lia
  end;
  repeat match goal with
  | |- context [Z.testbit (Zpos ?m) ?i] =>
      let b := eval vm_compute in (Z.testbit (Zpos m) i) in
      change (Z.testbit (Zpos m) i) with b
  end.

Ltac testbit_decide :=
  repeat match goal with
  | |- context [Z.testbit ?x ?i] => destruct (Z.testbit x i)
  end;
  reflexivity.

Lemma below_16_cases (i : Z) (P : Z -> Prop) :
  (0 <= i < 16)%Z ->
  P 0%Z -> P 1%Z -> P 2%Z -> P 3%Z -> P 4%Z -> P 5%Z -> P 6%Z -> P 7%Z ->
  P 8%Z -> P 9%Z -> P 10%Z -> P 11%Z -> P 12%Z -> P 13%Z -> P 14%Z -> P 15%Z ->
  P i.
Proof.
  intros Hi. intros.
  assert (i = 0 \/ i = 1 \/ i = 2 \/ i = 3 \/ i = 4 \/ i = 5 \/ i = 6 \/ i = 7
          \/ i = 8 \/ i = 9 \/ i = 10 \/ i = 11 \/ i = 12 \/ i = 13 \/ i = 14
          \/ i = 15)%Z as Hc by lia.
  repeat (destruct Hc as [-> | Hc]; [assumption |]). by subst.
Qed.

Lemma below_32_cases (i : Z) (P : Z -> Prop) :
  (0 <= i < 32)%Z ->
  (forall j, (0 <= j < 16)%Z -> P j) ->
  (forall j, (0 <= j < 16)%Z -> P (16 + j)%Z) ->
  P i.
Proof.
  intros Hi Hlo Hhi. destruct (Z.lt_ge_cases i 16).
  - apply Hlo. lia.
  - replace i with (16 + (i - 16))%Z by lia. apply Hhi. lia.
Qed.

Ltac each_bit_below_16 i Hi :=
  pattern i; apply (below_16_cases i _ Hi); clear Hi; cbv beta.

Ltac each_bit_below_32 i Hi :=
  pattern i; apply (below_32_cases i _ Hi); clear Hi; cbv beta;
  let j := fresh "j" in
  intros j Hi; each_bit_below_16 j Hi.

(** Bit [j] of byte [k] is bit [8 k + j]. *)
Lemma byte_at_testbit (k v j : Z) :
  (0 <= k)%Z -> (0 <= j)%Z ->
  Z.testbit (byte_at k v) j = if (j <? 8)%Z then Z.testbit v (8 * k + j) else false.
Proof.
  intros Hk Hj. unfold byte_at.
  rewrite <- Z.shiftr_div_pow2 by lia.
  destruct (Z.ltb_spec j 8).
  - rewrite Z.mod_pow2_bits_low, Z.shiftr_spec by lia. f_equal. lia.
  - rewrite Z.mod_pow2_bits_high by lia. reflexivity.
Qed.

Lemma byte_at_range (k v : Z) : (0 <= byte_at k v < 2 ^ 8)%Z.
Proof. unfold byte_at. apply Z.mod_pos_bound. lia. Qed.

Lemma byteswap16_bytes (v : Z) :
  (0 <= v < 2 ^ 16)%Z ->
  byteswap16 v = (byte_at 0 v * 2 ^ 8 + byte_at 1 v)%Z.
Proof.
  intros Hv. unfold byteswap16, to_uint16, byte_at.
  rewrite Z.shiftl_mul_pow2, Z.shiftr_div_pow2 by lia.
  change (2 ^ (8 * 0))%Z with 1%Z. change (8 * 1)%Z with 8%Z.
  rewrite Z.div_1_r.
  assert (Z.lor (v * 2 ^ 8) (v / 2 ^ 8) = v * 2 ^ 8 + v / 2 ^ 8)%Z as ->.
  { symmetry. rewrite <- Z.shiftl_mul_pow2, <- Z.shiftr_div_pow2 by lia.
    apply Z.add_nocarry_lor.
    apply Z.bits_inj'. intros i Hi.
    rewrite Z.land_spec, Z.bits_0, Z.shiftr_spec by lia.
    destruct (Z.lt_ge_cases i 8).
    - rewrite Z.shiftl_spec_low by lia. reflexivity.
    - rewrite (Z.bits_above_log2 v (i + 8)), andb_false_r; [done | lia |].
      destruct (Z.eq_dec v 0) as [-> | ?]; [simpl; lia |].
      assert (2 ^ 16 <= 2 ^ (i + 8))%Z by (apply Z.pow_le_mono_r; lia).
      apply Z.log2_lt_pow2; lia. }
  change (2 ^ 8)%Z with 256%Z in *. change (2 ^ 16)%Z with 65536%Z in *.
  Z.to_euclidean_division_equations; lia.
Qed.

(** X9: the 16-bit [byteswap] exchanges the two bytes of its argument,
    so applying it twice gives the argument back. *)
Theorem byteswap16_swaps (v : Z) :
  (0 <= v < 2 ^ 16)%Z ->
  (0 <= byteswap16 v < 2 ^ 16)%Z
  /\ byte_at 0 (byteswap16 v) = byte_at 1 v
  /\ byte_at 1 (byteswap16 v) = byte_at 0 v
  /\ byteswap16 (byteswap16 v) = v.
Proof.
  intros Hv.
  assert (0 <= byteswap16 v < 2 ^ 16)%Z as Hr
    by (unfold byteswap16, to_uint16; apply Z.mod_pos_bound; lia).
  split; [exact Hr |].
  rewrite (byteswap16_bytes (byteswap16 v) Hr), (byteswap16_bytes v Hv).
  unfold byte_at.
  change (2 ^ (8 * 0))%Z with 1%Z. change (2 ^ (8 * 1))%Z with 256%Z.
  change (2 ^ 8)%Z with 256%Z in *. change (2 ^ 16)%Z with 65536%Z in *.
  rewrite !Z.div_1_r.
  repeat split; Z.to_euclidean_division_equations; lia.
Qed.

(** Where each bit of the 32-bit [byteswap] comes from. *)
Lemma byteswap32_testbit (v i : Z) :
  (0 <= i < 32)%Z ->
  Z.testbit (byteswap32 v) i = Z.testbit v (24 - 8 * (i / 8) + i mod 8).
Proof.
  intros Hi. unfold byteswap32, to_uint32.
  each_bit_below_32 i Hi; testbit_push; testbit_eval; testbit_decide.
Qed.

Lemma below_pow2_of_high_bits (n a : Z) :
  (0 <= n)%Z -> (0 <= a)%Z ->
  (forall i, (n <= i)%Z -> Z.testbit a i = false) ->
  (0 <= a < 2 ^ n)%Z.
Proof.
  intros Hn Ha H.
  assert (a = a mod 2 ^ n)%Z as ->.
  { apply Z.bits_inj'. intros i Hi. destruct (Z.lt_ge_cases i n).
    - by rewrite Z.mod_pow2_bits_low by lia.
    - rewrite Z.mod_pow2_bits_high by lia. by apply H. }
  apply Z.mod_pos_bound. lia.
Qed.

Lemma byteswap32_range (v : Z) : (0 <= byteswap32 v < 2 ^ 32)%Z.
Proof.
  unfold byteswap32, to_uint32. set (tmp := Z.lor (Z.land _ 4278255360) _).
  assert (0 <= tmp)%Z as Ht.
  { unfold tmp. apply Z.lor_nonneg. split; apply Z.land_nonneg; right; lia. }
  apply below_pow2_of_high_bits; [lia | |].
  - apply Z.lor_nonneg. split; [apply Z.mod_pos_bound; lia | by apply Z.shiftr_nonneg].
  - intros i Hi.
    rewrite Z.lor_spec, Z.mod_pow2_bits_high, Z.shiftr_spec by lia. simpl.
    unfold tmp. rewrite Z.lor_spec, !Z.land_spec.
    rewrite (Z.bits_above_log2 4278255360), (Z.bits_above_log2 16711935);
      [by rewrite !andb_false_r | lia | simpl; lia | lia | simpl; lia].
Qed.

(** X10: the 32-bit [byteswap] reverses the four bytes of its argument:
    byte [k] of the result is byte [3 - k] of the argument, and applying
    it twice gives the argument back. *)
Theorem byteswap32_reverses (v : Z) :
  (0 <= v < 2 ^ 32)%Z ->
  (0 <= byteswap32 v < 2 ^ 32)%Z
  /\ (forall k, (0 <= k <= 3)%Z -> byte_at k (byteswap32 v) = byte_at (3 - k) v)
  /\ byteswap32 (byteswap32 v) = v.
Proof.
  intros Hv. split; [apply byteswap32_range |]. split.
  - intros k Hk.
    apply (bits_eq_below 8); [lia | apply byte_at_range | apply byte_at_range |].
    intros j Hj. rewrite !byte_at_testbit by lia.
    replace (j <? 8)%Z with true by (symmetry; apply Z.ltb_lt; lia).
    rewrite byteswap32_testbit by lia. f_equal.
    replace ((8 * k + j) / 8)%Z with k by (Z.to_euclidean_division_equations; lia).
    replace ((8 * k + j) mod 8)%Z with j by (Z.to_euclidean_division_equations; lia).
    lia.
  - apply (bits_eq_below 32); [lia | apply byteswap32_range | exact Hv |].
    intros i Hi. rewrite byteswap32_testbit by lia.
    rewrite byteswap32_testbit by (Z.to_euclidean_division_equations; lia).
    f_equal. Z.to_euclidean_division_equations; lia.
Qed.

(** * [CRC32] *)

Lemma crc32_bit_step_lxor (a b : Z) :
  crc32_bit_step (Z.lxor a b) = Z.lxor (crc32_bit_step a) (crc32_bit_step b).
Proof.
  unfold crc32_bit_step.
  rewrite Z.shiftr_lxor, <- !Z.bit0_odd, Z.lxor_spec.
  apply Z.bits_inj'. intros i Hi. rewrite !Z.lxor_spec.
  destruct (Z.testbit a 0), (Z.testbit b 0); simpl;
    rewrite ?Z.bits_0, ?Z.lxor_spec;
    destruct (Z.testbit (Z.shiftr a 1) i), (Z.testbit (Z.shiftr b 1) i),
      (Z.testbit crc32_polynomial i); reflexivity.
Qed.

Lemma crc32_steps_lxor (n : nat) (a b : Z) :
  Nat.iter n crc32_bit_step (Z.lxor a b)
  = Z.lxor (Nat.iter n crc32_bit_step a) (Nat.iter n crc32_bit_step b).
Proof.
  induction n as [| n IH]; [done |]. simpl. by rewrite IH, crc32_bit_step_lxor.
Qed.

(** Shifting out [n] zero bits only shifts. *)
Lemma crc32_steps_shifted (n : nat) (x : Z) :
  Nat.iter n crc32_bit_step (Z.shiftl x (Z.of_nat n)) = x.
Proof.
  induction n as [| n IH]; [apply Z.shiftl_0_r |].
  rewrite Nat.iter_succ_r. unfold crc32_bit_step at 2.
  rewrite <- Z.bit0_odd, Z.shiftl_spec_low by lia.
  rewrite Z.lxor_0_r, Z.shiftr_shiftl_l by lia.
  replace (Z.of_nat (S n) - 1)%Z with (Z.of_nat n) by lia. exact IH.
Qed.

Lemma lut_is_four_steps (l : Z) :
  (0 <= l < 16)%Z -> Nat.iter 4 crc32_bit_step l = CRC32.lut_at l.
Proof. intros Hl. each_bit_below_16 l Hl; reflexivity. Qed.

(** Four bit steps are one table step. *)
Lemma crc32_four_steps (c : Z) :
  (0 <= c)%Z ->
  Nat.iter 4 crc32_bit_step c
  = Z.lxor (CRC32.lut_at (Z.land c 0x0F)) (Z.shiftr c 4).
Proof.
  intros Hc.
  assert (c = Z.lxor (Z.land c 15) (Z.shiftl (Z.shiftr c 4) 4)) as Hsplit.
  { apply Z.bits_inj'. intros i Hi.
    rewrite Z.lxor_spec, Z.land_spec. change 15%Z with (Z.ones 4).
    destruct (Z.lt_ge_cases i 4).
    - rewrite Z.ones_spec_low, Z.shiftl_spec_low by lia.
      by rewrite andb_true_r, xorb_false_r.
    - rewrite Z.ones_spec_high, Z.shiftl_spec, Z.shiftr_spec by lia.
      rewrite andb_false_r. simpl. f_equal. lia. }
  rewrite Hsplit at 1.
  rewrite crc32_steps_lxor, (crc32_steps_shifted 4), lut_is_four_steps; [done |].
  change 15%Z with (Z.ones 4). rewrite Z.land_ones by lia.
  apply Z.mod_pos_bound. lia.
Qed.

Lemma lut_at_nonneg (i : Z) : (0 <= CRC32.lut_at i < 2 ^ 32)%Z.
Proof.
  unfold CRC32.lut_at.
  assert (Forall (fun x => 0 <= x < 2 ^ 32)%Z CRC32.lut) as Hall
    by (repeat constructor; lia).
  destruct (nth_in_or_default (Z.to_nat i) CRC32.lut 0%Z) as [Hin | ->]; [| lia].
  rewrite Forall_forall in Hall. apply Hall. by apply list_elem_of_In.
Qed.

Lemma lxor_below_pow2 (n a b : Z) :
  (0 <= n)%Z -> (0 <= a < 2 ^ n)%Z -> (0 <= b < 2 ^ n)%Z ->
  (0 <= Z.lxor a b < 2 ^ n)%Z.
Proof.
  intros Hn Ha Hb.
  apply below_pow2_of_high_bits; [lia | apply Z.lxor_nonneg; lia |].
  intros i Hi. rewrite Z.lxor_spec.
  assert (forall x, 0 <= x < 2 ^ n -> Z.testbit x i = false)%Z as Hhigh.
  { intros x Hx. rewrite <- (Z.mod_small x (2 ^ n)) by lia.
    apply Z.mod_pow2_bits_high. lia. }
  by rewrite !Hhigh.
Qed.

Lemma shiftr_below_pow2 (n a k : Z) :
  (0 <= k)%Z -> (0 <= a < 2 ^ n)%Z -> (0 <= Z.shiftr a k < 2 ^ n)%Z.
Proof.
  intros Hk Ha. rewrite Z.shiftr_div_pow2 by lia. split.
  - apply Z.div_pos; lia.
  - assert (a / 2 ^ k <= a)%Z; [| lia].
    apply Z.div_le_upper_bound; [lia |]. nia.
Qed.

Lemma feed_byte_range (value c : Z) :
  (0 <= value < 2 ^ 32)%Z -> (0 <= CRC32.feed_byte value c < 2 ^ 32)%Z.
Proof.
  intros Hv. unfold CRC32.feed_byte.
  apply lxor_below_pow2; [lia | apply lut_at_nonneg |].
  apply shiftr_below_pow2; [lia |].
  apply lxor_below_pow2; [lia | apply lut_at_nonneg |].
  apply shiftr_below_pow2; lia.
Qed.

Lemma feed_byte_is_eight_steps (value c : Z) :
  (0 <= value)%Z -> (0 <= c < 2 ^ 8)%Z ->
  CRC32.feed_byte value c = crc32_bitwise_byte value c.
Proof.
  intros Hv Hc. unfold crc32_bitwise_byte.
  change 8 with (4 + 4). rewrite Nat.iter_add.
  rewrite (crc32_four_steps (Z.lxor value c)) by (apply Z.lxor_nonneg; lia).
  set (v1 := Z.lxor (CRC32.lut_at (Z.land (Z.lxor value c) 15)) (Z.shiftr value 4)).
  assert (0 <= v1)%Z as Hv1.
  { unfold v1. apply Z.lxor_nonneg.
    pose proof (lut_at_nonneg (Z.land (Z.lxor value c) 15)).
    pose proof (Z.shiftr_nonneg value 4). lia. }
  assert (0 <= Z.shiftr c 4)%Z as Hc4 by (apply Z.shiftr_nonneg; lia).
  replace (Z.lxor (CRC32.lut_at (Z.land (Z.lxor value c) 15)) (Z.shiftr (Z.lxor value c) 4))
    with (Z.lxor v1 (Z.shiftr c 4))
    by (unfold v1; rewrite Z.shiftr_lxor, Z.lxor_assoc; reflexivity).
  rewrite (crc32_four_steps (Z.lxor v1 (Z.shiftr c 4)))
    by (apply Z.lxor_nonneg; lia).
  replace (Z.shiftr (Z.lxor v1 (Z.shiftr c 4)) 4) with (Z.shiftr v1 4).
  - reflexivity.
  - rewrite Z.shiftr_lxor, Z.shiftr_shiftr by lia.
    assert (Z.shiftr c (4 + 4) = 0)%Z as ->; [| by rewrite Z.lxor_0_r].
    apply Z.shiftr_eq_0; [lia |].
    destruct (Z.eq_dec c 0) as [-> | ?]; [simpl; lia |].
    apply Z.log2_lt_pow2; simpl; lia.
Qed.

(** X11: the table-driven [CRC32::feed] computes the reflected CRC-32
    of polynomial [0xEDB88320]: on every register value and every byte
    sequence it gives what the bit-at-a-time definition gives, and the
    register stays a 32-bit value. *)
Theorem crc32_feed_is_bitwise_crc (value : Z) (data : list byte) :
  (0 <= value < 2 ^ 32)%Z ->
  CRC32.feed value data = crc32_bitwise value data
  /\ (0 <= CRC32.feed value data < 2 ^ 32)%Z.
Proof.
  revert value. induction data as [| c data IH]; intros value Hv; [done |].
  unfold CRC32.feed, crc32_bitwise in *. simpl.
  assert (0 <= Z.of_N (Byte.to_N c) < 2 ^ 8)%Z as Hc.
  { pose proof (Byte.to_N_bounded c). simpl. lia. }
  rewrite <- feed_byte_is_eight_steps by lia.
  apply IH. by apply feed_byte_range.
Qed.

(** The check value of CRC-32: the nine ASCII digits "123456789". *)
Example crc32_check_value :
  CRC32.get (CRC32.feed CRC32.initial [x31; x32; x33; x34; x35; x36; x37; x38; x39])
  = 0xCBF43926%Z.
Proof. vm_compute. reflexivity. Qed.

(** * [starts_with] *)

Lemma std_equal_prefix (r1 r2 : list byte) :
  length r1 <= length r2 ->
  std_equal r1 r2 = true <-> exists rest, r2 = r1 ++ rest.
Proof.
  revert r2. induction r1 as [| x r1 IH]; intros r2 Hlen.
  - split; [intros _; by exists r2 | done].
  - destruct r2 as [| y r2]; simpl in *; [lia |].
    rewrite andb_true_iff, IH by lia. split.
    + intros [Hxy [rest ->]]. apply Byte.byte_dec_bl in Hxy as ->. by exists rest.
    + intros [rest Heq]. injection Heq as -> ->. split; [| by exists rest].
      by apply Byte.byte_dec_lb.
Qed.

(** X12: [starts_with(str, with)] is [true] exactly when [str] is [with]
    followed by something: an empty [with] is a prefix of every string,
    and a [with] longer than [str] is never one. *)
Theorem starts_with_iff_prefix (str with_ : list byte) :
  (starts_with str with_ = true <-> exists rest, str = with_ ++ rest)
  /\ starts_with str [] = true
  /\ (length str < length with_ -> starts_with str with_ = false).
Proof.
  unfold starts_with. repeat split.
  - intros H. apply andb_true_iff in H as [Hlen Heq].
    apply Nat.leb_le in Hlen. by apply std_equal_prefix.
  - intros [rest ->]. apply andb_true_iff. split.
    + apply Nat.leb_le. rewrite length_app. lia.
    + apply std_equal_prefix; [rewrite length_app; lia | by exists rest].
  - intros Hlen. apply andb_false_iff. left. apply Nat.leb_gt. lia.
Qed.

(** * [integer_range] *)

Section IntegerRange.

Import integer_range.

Variable w : Z.
Hypothesis w_nonneg : (0 <= w)%Z.

Implicit Types (r : integer_range.t) (off count idx : Z).

Ltac decide_leb :=
  repeat match goal with
  | |- context [(?a <=? ?b)%Z] =>
      first [ rewrite (proj2 (Z.leb_le a b)) by lia
            | rewrite (proj2 (Z.leb_gt a b)) by lia ]
  end.

Lemma wrap_value z : value w z -> wrap w z = z.
Proof. unfold value, wrap. intros H. by apply Z.mod_small. Qed.

Lemma wrap_is_value z : value w (wrap w z).
Proof. unfold value, wrap. apply Z.mod_pos_bound. lia. Qed.

Lemma wrap_overflow z : (2 ^ w <= z < 2 * 2 ^ w)%Z -> wrap w z = (z - 2 ^ w)%Z.
Proof.
  intros H. unfold wrap. symmetry. apply (Z.mod_unique z (2 ^ w) 1); lia.
Qed.

Lemma minus_one_max : minus_one w = (2 ^ w - 1)%Z.
Proof.
  unfold minus_one, wrap. symmetry. apply (Z.mod_unique _ _ (-1)); lia.
Qed.

Lemma ctor_well_formed b e : value w b -> value w e -> well_formed w (ctor b e).
Proof.
  intros Hb He. unfold ctor, well_formed.
  destruct (Z.ltb_spec e b); simpl; repeat split; unfold value in *; lia.
Qed.

Lemma size_well_formed r : well_formed w r -> size w r = (m_end r - m_beg r)%Z.
Proof.
  intros (Hb & He & Hle). unfold size. apply wrap_value. unfold value in *. lia.
Qed.

(** X13: every range the interface hands out has its beginning before
    its end.  The default range, the result of the two-argument
    constructor on any two values (an inverted pair is clamped), the
    result of [offset] and the result of [subrange] all satisfy
    [m_beg <= m_end], also when the additions wrap. *)
Theorem integer_range_beg_le_end :
  well_formed w default
  /\ (forall b e, value w b -> value w e -> well_formed w (ctor b e))
  /\ (forall r off, well_formed w (offset w r off))
  /\ (forall r off count, well_formed w r -> well_formed w (subrange w r off count)).
Proof.
  assert (well_formed w default) as Hd.
  { unfold well_formed, default, value; simpl. lia. }
  split; [exact Hd |]. split; [exact ctor_well_formed |]. split.
  - intros r off. apply ctor_well_formed; apply wrap_is_value.
  - intros r off count (Hb & He & Hle). unfold subrange.
    destruct (negb _); [exact Hd |].
    unfold subrange_unchecked. apply ctor_well_formed; [apply wrap_is_value |].
    destruct (_ =? _)%Z; [exact He | apply wrap_is_value].
Qed.

(** X14: [operator[]] never leaves the range.  For an index up to
    [size()] it returns [m_beg + idx], so the index [size()] itself gives
    [m_end], one past the last element; for a larger index it returns
    [m_end] (and logs an error). *)
Theorem integer_range_at r idx :
  well_formed w r ->
  value w idx ->
  (m_beg r <= at_ w r idx <= m_end r)%Z
  /\ ((idx <= size w r)%Z -> at_ w r idx = (m_beg r + idx)%Z)
  /\ ((size w r <= idx)%Z -> at_ w r idx = m_end r).
Proof.
  intros Hr Hidx. pose proof (size_well_formed r Hr) as Hs.
  destruct Hr as (Hb & He & Hle). unfold at_. rewrite Hs.
  unfold value in *.
  destruct (Z.ltb_spec (m_end r - m_beg r) idx).
  - repeat split; lia.
  - rewrite wrap_value by (unfold value; lia). repeat split; lia.
Qed.

Lemma subrange_inside r off count :
  well_formed w r -> value w off -> value w count ->
  count <> minus_one w ->
  (off + count <= m_end r - m_beg r)%Z ->
  subrange_unchecked w r off count = mk (m_beg r + off) (m_beg r + off + count)
  /\ is_subrange r (mk (m_beg r + off) (m_beg r + off + count)) = true.
Proof.
  intros (Hb & He & Hle) Hoff Hcount Hc Hin. unfold value in *.
  unfold subrange_unchecked, is_subrange, ctor, beg, end_.
  apply Z.eqb_neq in Hc. rewrite Hc.
  rewrite (wrap_value (m_beg r + off)) by (unfold value; lia).
  rewrite (wrap_value (m_beg r + off + count)) by (unfold value; lia).
  destruct (Z.ltb_spec (m_beg r + off + count) (m_beg r + off)); [lia |]. simpl.
  decide_leb. done.
Qed.

(** X15: [subrange(offset, count)] inside the range is the range
    [m_beg + offset, m_beg + offset + count), of size [count]; with the
    default [count] of [-1] it runs to [m_end]; and a request that
    reaches past [m_end] without wrapping gives the default range
    [0, 0) (and logs an error), which need not lie inside the range. *)
Theorem integer_range_subrange r off count :
  well_formed w r ->
  value w off ->
  value w count ->
  ((off <= size w r)%Z ->
     subrange w r off (minus_one w) = mk (m_beg r + off) (m_end r))
  /\ (count <> minus_one w -> (off + count <= size w r)%Z ->
        subrange w r off count = mk (m_beg r + off) (m_beg r + off + count)
        /\ size w (subrange w r off count) = count
        /\ is_valid_subrange w r off count = true)
  /\ (count <> minus_one w -> (size w r < off + count)%Z ->
        (m_beg r + off + count < 2 ^ w)%Z ->
        subrange w r off count = default
        /\ is_valid_subrange w r off count = false).
Proof.
  intros Hr Hoff Hcount. pose proof (size_well_formed r Hr) as Hs.
  destruct Hr as (Hb & He & Hle). rewrite Hs. unfold value in *.
  unfold is_valid_subrange, subrange, subrange_unchecked, is_subrange, ctor, beg, end_.
  split; [| split].
  - intros Hin. rewrite Z.eqb_refl.
    rewrite (wrap_value (m_beg r + off)) by (unfold value; lia).
    destruct (Z.ltb_spec (m_end r) (m_beg r + off)); [lia |]. simpl.
    decide_leb. reflexivity.
  - intros Hc Hin.
    destruct (subrange_inside r off count) as [Hu Hi];
      [unfold well_formed, value; lia | done | done | done | lia |].
    unfold subrange_unchecked, is_subrange, ctor, beg, end_ in Hu, Hi.
    simpl in Hi. rewrite Hu. simpl. rewrite Hi. simpl.
    unfold size; simpl. rewrite wrap_value by (unfold value; lia).
    repeat split. lia.
  - intros Hc Hout Hno. apply Z.eqb_neq in Hc. rewrite Hc.
    destruct (Z.lt_ge_cases (m_beg r + off) (2 ^ w)).
    + rewrite (wrap_value (m_beg r + off)) by (unfold value; lia).
      rewrite (wrap_value (m_beg r + off + count)) by (unfold value; lia).
      destruct (Z.ltb_spec (m_beg r + off + count) (m_beg r + off)); [lia |]. simpl.
      decide_leb. rewrite ?andb_false_r. done.
    + lia.
Qed.

(** X16: [subrange] does not notice an end index that wraps.  When
    [m_beg + offset] is inside the range but adding [count] passes
    [2^w], the wrapped end is below the beginning, the constructor
    clamps it, and [subrange] returns the empty range at
    [m_beg + offset] as if the request had been valid. *)
Theorem integer_range_subrange_wraps r off count :
  well_formed w r ->
  value w off ->
  value w count ->
  count <> minus_one w ->
  (off <= size w r)%Z ->
  (2 ^ w <= m_beg r + off + count)%Z ->
  subrange w r off count = mk (m_beg r + off) (m_beg r + off)
  /\ is_valid_subrange w r off count = true.
Proof.
  intros Hr Hoff Hcount Hc Hin Hwrap. pose proof (size_well_formed r Hr) as Hs.
  destruct Hr as (Hb & He & Hle). rewrite Hs in Hin. unfold value in *.
  unfold is_valid_subrange, subrange, subrange_unchecked, is_subrange, ctor, beg, end_.
  apply Z.eqb_neq in Hc. rewrite Hc.
  rewrite (wrap_value (m_beg r + off)) by (unfold value; lia).
  rewrite (wrap_overflow (m_beg r + off + count)) by lia.
  destruct (Z.ltb_spec (m_beg r + off + count - 2 ^ w) (m_beg r + off)); [| lia]. simpl.
  decide_leb. done.
Qed.

(** X17: taking a subrange of a subrange adds the offsets: inside the
    range, [r.subrange(a, n).subrange(b, m)] is [r.subrange(a + b, m)]. *)
Theorem integer_range_subrange_compose r a n b m :
  well_formed w r ->
  value w a -> value w n -> value w b -> value w m ->
  n <> minus_one w -> m <> minus_one w ->
  (a + n <= size w r)%Z ->
  (b + m <= n)%Z ->
  subrange w (subrange w r a n) b m = subrange w r (a + b) m.
Proof.
  intros Hr Ha Hn Hb Hm Hn1 Hm1 Hin1 Hin2.
  rewrite (size_well_formed r Hr) in Hin1.
  assert (forall x off count, well_formed w x -> value w off -> value w count ->
            count <> minus_one w -> (off + count <= m_end x - m_beg x)%Z ->
            subrange w x off count = mk (m_beg x + off) (m_beg x + off + count))
    as Hsub.
  { intros x off count Hx Hoff Hcount Hc Hin.
    destruct (subrange_inside x off count Hx Hoff Hcount Hc Hin) as [Hu Hi].
    unfold subrange. by rewrite Hu, Hi. }
  pose proof Hr as (Hrb & Hre & Hrle). unfold value in *.
  rewrite (Hsub r a n) by (done || unfold value; lia).
  rewrite (Hsub r (a + b)%Z m) by (done || unfold value; lia).
  rewrite Hsub; simpl; [f_equal; lia | | done | done | done | lia].
  unfold well_formed, value; simpl. lia.
Qed.

End IntegerRange.

(** * [insert_sorted], [insert_sorted_nodupe] *)

Section InsertSortedFacts.

Context {T : Type} `{EqDecision T} (lt : relation T) `{!RelDecision lt}.
Context `{!StrictOrder lt} `{!Trichotomy lt}.

Implicit Types (vec : list T) (item x y : T).

Lemma not_gt_trans x y z : not_gt lt x y -> not_gt lt y z -> not_gt lt x z.
Proof.
  unfold not_gt. intros Hxy Hyz Hzx.
  destruct (trichotomy lt x y) as [Hlt | [-> | Hgt]]; [| done | done].
  apply Hyz. by transitivity x.
Qed.

Lemma vector_insert_cons x vec (k : nat) item :
  vector_insert (x :: vec) (S k) item = x :: vector_insert vec k item.
Proof. reflexivity. Qed.

Lemma lower_bound_le_length vec item : lower_bound lt vec item <= length vec.
Proof.
  induction vec as [| x vec IH]; simpl; [lia |]. destruct (decide _); lia.
Qed.

Lemma vector_insert_permutation vec (k : nat) item :
  vector_insert vec k item ≡ₚ item :: vec.
Proof.
  unfold vector_insert. rewrite <- Permutation_middle. by rewrite take_drop.
Qed.

(** Everything before the lower bound is less than the item. *)
Lemma before_lower_bound vec item x :
  x ∈ take (lower_bound lt vec item) vec -> lt x item.
Proof.
  induction vec as [| y vec IH]; simpl; [by intros ?%elem_of_nil |].
  destruct (decide (lt y item)); simpl; [| by intros ?%elem_of_nil].
  intros [-> | Hin]%elem_of_cons; [done | by apply IH].
Qed.

(** In a sorted vector nothing from the lower bound on is less. *)
Lemma from_lower_bound vec item x :
  StronglySorted (not_gt lt) vec ->
  x ∈ drop (lower_bound lt vec item) vec -> ~ lt x item.
Proof.
  induction vec as [| y vec IH]; simpl; [by intros _ ?%elem_of_nil |].
  intros Hs. apply StronglySorted_inv in Hs as [Hs Hy].
  destruct (decide (lt y item)) as [Hlt | Hnlt]; simpl; [by apply IH |].
  intros [-> | Hin]%elem_of_cons; [done |].
  rewrite Forall_forall in Hy. intros Hx. apply (Hy x Hin). 
  destruct (trichotomy lt y item) as [? | [-> | Hgt]]; [done | done |].
  by transitivity item.
Qed.

Lemma insert_keeps_sorted vec item :
  StronglySorted (not_gt lt) vec ->
  StronglySorted (not_gt lt) (vector_insert vec (lower_bound lt vec item) item).
Proof.
  induction vec as [| x vec IH]; intros Hs; simpl.
  - unfold vector_insert; simpl. repeat constructor.
  - pose proof Hs as Hs0. apply StronglySorted_inv in Hs as [Hs Hx].
    destruct (decide (lt x item)) as [Hlt | Hnlt].
    + rewrite vector_insert_cons. constructor; [by apply IH |].
      rewrite vector_insert_permutation. constructor; [| done].
      unfold not_gt. intros Hgt. apply (irreflexivity lt x). by transitivity item.
    + unfold vector_insert; simpl. constructor; [done |].
      constructor; [done |].
      rewrite Forall_forall in Hx |- *. intros y Hy.
      apply (not_gt_trans item x y); [done | by apply Hx].
Qed.

(** X18: [insert_sorted] keeps a sorted vector sorted.  The result is
    the old vector with [item] added once, in non-decreasing order, the
    returned position holds [item], every element before it is less
    than [item] and none after it is (so [item] goes in front of the
    elements equal to it). *)
Theorem insert_sorted_sorted vec item :
  StronglySorted (not_gt lt) vec ->
  let '(it, vec') := insert_sorted lt vec item in
  StronglySorted (not_gt lt) vec'
  /\ vec' ≡ₚ item :: vec
  /\ vec' !! it = Some item
  /\ (forall x, x ∈ take it vec' -> lt x item)
  /\ (forall x, x ∈ drop (S it) vec' -> ~ lt x item).
Proof.
  intros Hs. unfold insert_sorted.
  pose proof (lower_bound_le_length vec item) as Hle.
  split; [by apply insert_keeps_sorted |].
  split; [apply vector_insert_permutation |].
  unfold vector_insert.
  assert (length (take (lower_bound lt vec item) vec) = lower_bound lt vec item) as Hlen
    by (rewrite length_take; lia).
  split; [| split].
  - rewrite lookup_app_r by lia. by rewrite Hlen, Nat.sub_diag.
  - intros x. rewrite take_app_le by lia. rewrite take_take, Nat.min_id.
    apply before_lower_bound.
  - intros x. rewrite drop_app_ge by lia. rewrite Hlen.
    replace (S (lower_bound lt vec item) - lower_bound lt vec item) with 1 by lia.
    simpl. rewrite drop_0. by apply from_lower_bound.
Qed.

Lemma strictly_sorted_not_gt vec :
  StronglySorted lt vec -> StronglySorted (not_gt lt) vec.
Proof.
  induction 1 as [| x vec Hs IH Hx]; constructor; [done |].
  eapply Forall_impl; [exact Hx |]. intros y Hxy Hyx.
  apply (irreflexivity lt x). by transitivity y.
Qed.

(** The element at the lower bound of a strictly sorted vector is the
    only one that can equal the item. *)
Lemma lower_bound_finds vec item :
  StronglySorted lt vec ->
  item ∈ vec <-> vec !! lower_bound lt vec item = Some item.
Proof.
  intros Hs. split; [| by intros ?%list_elem_of_lookup_2].
  induction Hs as [| x vec Hs IH Hx]; [by intros ?%elem_of_nil |].
  intros Hin. simpl. destruct (decide (lt x item)) as [Hlt | Hnlt]; simpl.
  - apply elem_of_cons in Hin as [-> | Hin]; [| by apply IH].
    by destruct (irreflexivity lt x).
  - apply elem_of_cons in Hin as [-> | Hin]; [done |].
    rewrite Forall_forall in Hx. exfalso. apply Hnlt. by apply Hx.
Qed.

Lemma insert_keeps_strictly_sorted vec item :
  StronglySorted lt vec ->
  ~ item ∈ vec ->
  StronglySorted lt (vector_insert vec (lower_bound lt vec item) item).
Proof.
  induction vec as [| x vec IH]; intros Hs Hnin; simpl.
  - unfold vector_insert; simpl. repeat constructor.
  - pose proof Hs as Hs0. apply StronglySorted_inv in Hs as [Hs Hx].
    apply not_elem_of_cons in Hnin as [Hne Hnin].
    destruct (decide (lt x item)) as [Hlt | Hnlt].
    + rewrite vector_insert_cons. constructor; [by apply IH |].
      rewrite vector_insert_permutation. by constructor.
    + unfold vector_insert; simpl.
      assert (lt item x) as Hix
        by (destruct (trichotomy lt item x) as [? | [-> | ?]]; done).
      constructor; [done |]. constructor; [done |].
      eapply Forall_impl; [exact Hx |]. intros y Hy. by transitivity x.
Qed.

Lemma nodupe_result vec item :
  StronglySorted lt vec ->
  insert_sorted_nodupe lt vec item
  = if decide (item ∈ vec)
    then (lower_bound lt vec item, false, vec)
    else (lower_bound lt vec item, true,
          vector_insert vec (lower_bound lt vec item) item).
Proof.
  intros Hs. unfold insert_sorted_nodupe.
  pose proof (lower_bound_finds vec item Hs) as Hfind.
  destruct (decide (item ∈ vec)) as [Hin | Hnin].
  - rewrite (proj1 Hfind Hin). by rewrite decide_True.
  - destruct (vec !! lower_bound lt vec item) as [x |] eqn:Hx; [| done].
    destruct (decide (x = item)) as [-> | ?]; [| done].
    exfalso. apply Hnin. by apply Hfind.
Qed.

(** X19: [insert_sorted_nodupe] on a strictly sorted vector (sorted,
    no two elements equal) reports [false] exactly when the item is
    already there and then leaves the vector as it is; otherwise it adds
    the item once.  Either way the vector stays strictly sorted and the
    returned position holds the item. *)
Theorem insert_sorted_nodupe_strict vec item :
  StronglySorted lt vec ->
  let '(it, inserted, vec') := insert_sorted_nodupe lt vec item in
  (inserted = false <-> item ∈ vec)
  /\ (inserted = false -> vec' = vec)
  /\ (inserted = true -> vec' ≡ₚ item :: vec)
  /\ StronglySorted lt vec'
  /\ vec' !! it = Some item.
Proof.
  intros Hs. rewrite (nodupe_result vec item Hs).
  destruct (decide (item ∈ vec)) as [Hin | Hnin].
  - repeat split; try done. by apply lower_bound_finds.
  - split; [split; [done | by intros ?] |]. split; [done |].
    split; [intros _; apply vector_insert_permutation |].
    split; [by apply insert_keeps_strictly_sorted |].
    unfold vector_insert.
    pose proof (lower_bound_le_length vec item).
    rewrite lookup_app_r by (rewrite length_take; lia).
    rewrite length_take. by replace (_ - _) with 0 by lia.
Qed.



(** X21: a [start] beyond the item's place breaks the order.  When the
    vector is strictly sorted and some element before [start] is greater
    than the item, the search finds nothing less than the item from
    [start] on, the item is inserted at [start] itself, and the result is
    not sorted. *)
Theorem insert_sorted_nodupe_from_misplaces vec (start : nat) item y :
  StronglySorted lt vec ->
  start <= length vec ->
  y ∈ take start vec ->
  lt item y ->
  insert_sorted_nodupe_from lt vec start item
  = (start, true, take start vec ++ item :: drop start vec)
  /\ ~ StronglySorted (not_gt lt) (take start vec ++ item :: drop start vec).
Proof.
  intros Hs Hlen Hy Hlt.
  assert (forall x, x ∈ drop start vec -> lt item x) as Hafter.
  { intros x Hx. transitivity y; [done |].
    rewrite <- (take_drop start vec) in Hs.
    by apply (StronglySorted_app_1_elem_of lt (take start vec) (drop start vec)). }
  assert (lower_bound lt (drop start vec) item = 0) as Hlb.
  { destruct (drop start vec) as [| x rest]; [done |]. simpl.
    rewrite decide_False; [done |]. intros Hx.
    apply (irreflexivity lt item). transitivity x; [| done]. apply Hafter. left. }
  split.
  - unfold insert_sorted_nodupe_from. rewrite Hlb, Nat.add_0_r.
    destruct (vec !! start) as [x |] eqn:Hx; [| done].
    rewrite decide_False; [done |]. intros ->.
    apply (irreflexivity lt item). apply Hafter.
    apply list_elem_of_lookup. exists 0. by rewrite lookup_drop, Nat.add_0_r.
  - intros Hsorted.
    apply (StronglySorted_app_1_elem_of _ _ _ y item) in Hsorted; [| done | left].
    by apply Hsorted.
Qed.

End InsertSortedFacts.

(** * [cmp_less] and [integral_cast] *)

Section IntegerCasts.

Import inttype.

Implicit Types (T U tgt src ty : inttype.t).

(** Split a fixed-width type into its eight instances. *)
Ltac each_type ty H :=
  let s := fresh "s" in
  let b := fresh "b" in
  destruct ty as [s b]; unfold fixed_width in H; simpl in H;
  destruct H as [-> | [-> | [-> | ->]]]; destruct s.

(** Evaluate what mentions types and literals only: the common type of
    an operator, the limits, and the traits. *)
Ltac eval_types :=
  repeat match goal with
  | |- context [integral_cast_traits.may_negative_overflow (mk ?s1 ?b1) (mk ?s2 ?b2)] =>
      let v := eval vm_compute in
        (integral_cast_traits.may_negative_overflow (mk s1 b1) (mk s2 b2)) in
      change (integral_cast_traits.may_negative_overflow (mk s1 b1) (mk s2 b2)) with v
  | |- context [integral_cast_traits.may_positive_overflow (mk ?s1 ?b1) (mk ?s2 ?b2)] =>
      let v := eval vm_compute in
        (integral_cast_traits.may_positive_overflow (mk s1 b1) (mk s2 b2)) in
      change (integral_cast_traits.may_positive_overflow (mk s1 b1) (mk s2 b2)) with v
  | |- context [common ?a ?b] =>
      let v := eval vm_compute in (common a b) in change (common a b) with v
  | |- context [make_unsigned (mk ?s ?b)] =>
      change (make_unsigned (mk s b)) with (mk false b)
  | |- context [static_cast ?ty (lowest ?t)] =>
      let v := eval vm_compute in (static_cast ty (lowest t)) in
      change (static_cast ty (lowest t)) with v
  | |- context [static_cast ?ty (max ?t)] =>
      let v := eval vm_compute in (static_cast ty (max t)) in
      change (static_cast ty (max t)) with v
  | |- context [static_cast ?ty (Zpos ?p)] =>
      let v := eval vm_compute in (static_cast ty (Zpos p)) in
      change (static_cast ty (Zpos p)) with v
  | |- context [static_cast ?ty (Zneg ?p)] =>
      let v := eval vm_compute in (static_cast ty (Zneg p)) in
      change (static_cast ty (Zneg p)) with v
  | |- context [static_cast ?ty Z0] =>
      let v := eval vm_compute in (static_cast ty Z0) in
      change (static_cast ty Z0) with v
  | |- context [lowest (mk ?s ?b)] =>
      let v := eval vm_compute in (lowest (mk s b)) in change (lowest (mk s b)) with v
  | |- context [max (mk ?s ?b)] =>
      let v := eval vm_compute in (max (mk s b)) in change (max (mk s b)) with v
  end.

(** A conversion of a value the target type holds keeps the value. *)
Ltac cast_small :=
  repeat match goal with
  | |- context [static_cast (mk true ?b) ?z] =>
      change (static_cast (mk true b) z)
        with ((z + 2 ^ (b - 1)) mod 2 ^ b - 2 ^ (b - 1))%Z;
      rewrite (Z.mod_small (z + 2 ^ (b - 1)) (2 ^ b)) by lia;
      replace (z + 2 ^ (b - 1) - 2 ^ (b - 1))%Z with z by lia
  | |- context [static_cast (mk false ?b) ?z] =>
      change (static_cast (mk false b) z) with (z mod 2 ^ b)%Z;
      rewrite (Z.mod_small z (2 ^ b)) by lia
  end.

Ltac decide_ltb :=
  cast_small;
  repeat match goal with
  | |- context [(?a <? ?b)%Z] => destruct (Z.ltb_spec a b)
  | |- context [(?a =? ?b)%Z] => destruct (Z.eqb_spec a b)
  end;
  try reflexivity; try lia.

Ltac limits_in H :=
  unfold in_range, lowest, max in H; cbn [is_signed bits] in H.

Lemma static_cast_in_range ty z :
  fixed_width ty -> in_range ty z -> static_cast ty z = z.
Proof.
  intros Hty Hz. each_type ty Hty; limits_in Hz; cast_small; reflexivity.
Qed.

(** X22: [cmp_less] compares the values, whatever the two types.  For
    operands of any two fixed-width integer types it returns whether
    [t] is mathematically less than [u], where the built-in [<] would
    first convert a negative operand to unsigned. *)
Theorem cmp_less_is_less T U t u :
  fixed_width T -> fixed_width U ->
  in_range T t -> in_range U u ->
  cmp_less T U t u = (t <? u)%Z.
Proof.
  intros HT HU Ht Hu.
  each_type T HT; each_type U HU; limits_in Ht; limits_in Hu;
    unfold cmp_less, builtin_lt; cbn [is_signed Bool.eqb]; eval_types;
    cast_small;
    try reflexivity;
    match goal with
    | |- context [(?a <? 0)%Z] => destruct (Z.ltb_spec a 0)
    end;
    decide_ltb.
Qed.

(** The built-in comparison of [-1] with [1u] says "not less". *)
Example builtin_lt_mixed :
  builtin_lt (mk true 32) (mk false 32) (-1) 1 = false
  /\ cmp_less (mk true 32) (mk false 32) (-1) 1 = true.
Proof. split; vm_compute; reflexivity. Qed.

Lemma check_classifies tgt src x :
  fixed_width tgt -> fixed_width src -> in_range src x ->
  integral_cast_check tgt src x
  = if (x <? lowest tgt)%Z then negative_overflow
    else if (max tgt <? x)%Z then positive_overflow
    else lossless.
Proof.
  intros Ht Hs Hx.
  each_type tgt Ht; each_type src Hs; limits_in Hx;
    unfold integral_cast_check, builtin_lt; eval_types;
    cbn [andb]; cast_small; decide_ltb.
Qed.

(** X23: [integral_cast_check] tells on which side a value leaves the
    target type.  For a value [x] of the source type it returns
    [negative_overflow] exactly when [x] is below the target's lowest
    value, [positive_overflow] exactly when it is above the target's
    largest, and [lossless] exactly when the target type holds [x]. *)
Theorem integral_cast_check_sides tgt src x :
  fixed_width tgt -> fixed_width src -> in_range src x ->
  (integral_cast_check tgt src x = negative_overflow <-> (x < lowest tgt)%Z)
  /\ (integral_cast_check tgt src x = positive_overflow <-> (max tgt < x)%Z)
  /\ (integral_cast_check tgt src x = lossless <-> in_range tgt x).
Proof.
  intros Ht Hs Hx. rewrite (check_classifies tgt src x Ht Hs Hx).
  assert (lowest tgt <= max tgt)%Z as Hlim.
  { clear Hx. each_type tgt Ht; unfold lowest, max; cbn [is_signed bits]; lia. }
  unfold in_range.
  destruct (Z.ltb_spec x (lowest tgt)); [| destruct (Z.ltb_spec (max tgt) x)];
    repeat split; intros; try discriminate; try reflexivity; lia.
Qed.

Lemma check2_is_lossless tgt src x :
  fixed_width tgt -> fixed_width src -> in_range src x ->
  integral_cast_check2 tgt src x (static_cast tgt x)
  = match integral_cast_check tgt src x with lossless => true | _ => false end.
Proof.
  intros Ht Hs Hx. rewrite (check_classifies tgt src x Ht Hs Hx).
  unfold integral_cast_check2.
  destruct (Bool.eqb (is_signed tgt) (is_signed src)
            && integral_cast_traits.may_positive_overflow tgt src) eqn:Hfast.
  - each_type tgt Ht; each_type src Hs; try discriminate Hfast; clear Hfast;
      limits_in Hx; unfold builtin_eq; eval_types;
      unfold static_cast; cbn [is_signed bits];
      repeat match goal with
      | |- context [(?a <? ?b)%Z] => destruct (Z.ltb_spec a b)
      end;
      match goal with
      | |- (?a =? ?b)%Z = _ => destruct (Z.eqb_spec a b) as [He | He]
      end;
      try reflexivity; exfalso;
      revert He; Z.to_euclidean_division_equations; lia.
  - rewrite (check_classifies tgt src x Ht Hs Hx). reflexivity.
Qed.

(** X24: [integral_cast<T>(x, ok)] sets [ok] exactly when the target
    type holds [x], and then the converted value is [x]; the converted
    value is always a value of the target type.  The shortcut taken for
    a narrowing between types of the same signedness (convert back and
    compare) agrees with [integral_cast_check]. *)
Theorem integral_cast_ok_iff_lossless tgt src x :
  fixed_width tgt -> fixed_width src -> in_range src x ->
  let '(res, ok) := integral_cast tgt src x in
  (ok = true <-> in_range tgt x)
  /\ (ok = true -> res = x)
  /\ in_range tgt res
  /\ (ok = true <-> integral_cast_check tgt src x = lossless).
Proof.
  intros Ht Hs Hx. unfold integral_cast.
  rewrite (check2_is_lossless tgt src x Ht Hs Hx).
  rewrite (check_classifies tgt src x Ht Hs Hx).
  assert (in_range tgt (static_cast tgt x)) as Hres.
  { clear Hx. each_type tgt Ht; unfold in_range, lowest, max, static_cast;
      cbn [is_signed bits]; Z.to_euclidean_division_equations; lia. }
  assert (lowest tgt <= max tgt)%Z as Hlim by (unfold in_range in Hres; lia).
  unfold in_range in *.
  destruct (Z.ltb_spec x (lowest tgt)); [| destruct (Z.ltb_spec (max tgt) x)].
  - repeat split; try done; intros; lia.
  - repeat split; try done; intros; lia.
  - repeat split; try done; try lia.
    intros _. apply static_cast_in_range; [done |]. unfold in_range. lia.
Qed.


End IntegerCasts.

(** * [align_up], [align_down] *)

(** Masking with [~(2^k - 1)] clears the low [k] bits. *)
Lemma land_alignment_mask (x k : Z) :
  (0 <= k < 64)%Z -> (0 <= x < 2 ^ 64)%Z ->
  Z.land x (to_uint64 (Z.lnot (to_uint64 (2 ^ k - 1)))) = (x - x mod 2 ^ k)%Z.
Proof.
  intros Hk Hx. unfold to_uint64.
  assert (0 < 2 ^ k <= 2 ^ 63)%Z as Hpow
    by (split; [apply Z.pow_pos_nonneg; lia | apply Z.pow_le_mono_r; lia]).
  rewrite (Z.mod_small (2 ^ k - 1)) by lia.
  replace (x - x mod 2 ^ k)%Z with (Z.shiftl (Z.shiftr x k) k).
  2: { rewrite Z.shiftl_mul_pow2, Z.shiftr_div_pow2 by lia.
       pose proof (Z.div_mod x (2 ^ k)). lia. }
  replace (2 ^ k - 1)%Z with (Z.ones k) by (rewrite Z.ones_equiv; lia).
  apply Z.bits_inj'. intros i Hi. rewrite Z.land_spec.
  destruct (Z.lt_ge_cases i 64) as [H64 | H64].
  - rewrite Z.mod_pow2_bits_low, Z.lnot_spec by lia.
    destruct (Z.lt_ge_cases i k).
    + rewrite Z.ones_spec_low, Z.shiftl_spec_low by lia. apply andb_false_r.
    + rewrite Z.ones_spec_high, Z.shiftl_spec, Z.shiftr_spec by lia.
      simpl. rewrite andb_true_r. f_equal. lia.
  - rewrite Z.mod_pow2_bits_high, andb_false_r by lia.
    rewrite Z.shiftl_spec, Z.shiftr_spec by lia.
    replace (i - k + k)%Z with i by lia.
    rewrite <- (Z.mod_small x (2 ^ 64)) by lia.
    symmetry. apply Z.mod_pow2_bits_high. lia.
Qed.

(** X26: [align_down] rounds down to a multiple of the alignment.  For
    an alignment [2^k] the result is [address] minus its remainder: a
    multiple of the alignment, at most [address], less than one
    alignment below it. *)
Theorem align_down_rounds_down (address k : Z) :
  (0 <= k < 64)%Z ->
  (0 <= address < 2 ^ 64)%Z ->
  let r := align_down address (2 ^ k) in
  r = (address - address mod 2 ^ k)%Z
  /\ (r mod 2 ^ k = 0)%Z
  /\ (r <= address < r + 2 ^ k)%Z
  /\ align_down r (2 ^ k) = r.
Proof.
  intros Hk Ha. unfold align_down.
  assert (0 < 2 ^ k <= 2 ^ 63)%Z as Hpow
    by (split; [apply Z.pow_pos_nonneg; lia | apply Z.pow_le_mono_r; lia]).
  rewrite !(land_alignment_mask address k Hk Ha). cbv zeta.
  pose proof (Z.mod_pos_bound address (2 ^ k) ltac:(lia)) as Hm.
  assert ((address - address mod 2 ^ k) mod 2 ^ k = 0)%Z as Hz.
  { rewrite Zminus_mod_idemp_r, Z.sub_diag. apply Z.mod_0_l. lia. }
  pose proof (Z.mod_le address (2 ^ k) ltac:(lia) ltac:(lia)) as Hle.
  set (m := (address mod 2 ^ k)%Z) in *. clearbody m.
  repeat split; try lia.
  rewrite land_alignment_mask by lia. rewrite Hz. lia.
Qed.

(** X27: [align_up] rounds up to a multiple of the alignment unless the
    sum wraps.  For an alignment [2^k], when [address + 2^k - 1] fits in
    64 bits the result is the least multiple of the alignment that is at
    least [address] (so an aligned address is returned as it is);
    otherwise the addition wraps and the result is [0]. *)
Theorem align_up_rounds_up (address k : Z) :
  (0 <= k < 64)%Z ->
  (0 <= address < 2 ^ 64)%Z ->
  let r := align_up address (2 ^ k) in
  ((address + 2 ^ k - 1 < 2 ^ 64)%Z ->
     (r mod 2 ^ k = 0)%Z /\ (address <= r < address + 2 ^ k)%Z
     /\ ((address mod 2 ^ k = 0)%Z -> r = address))
  /\ ((2 ^ 64 <= address + 2 ^ k - 1)%Z -> r = 0%Z).
Proof.
  intros Hk Ha. unfold align_up.
  assert (0 < 2 ^ k <= 2 ^ 63)%Z as Hpow
    by (split; [apply Z.pow_pos_nonneg; lia | apply Z.pow_le_mono_r; lia]).
  assert (to_uint64 (to_uint64 (address + 2 ^ k) - 1)
          = to_uint64 (address + 2 ^ k - 1)) as ->
    by (unfold to_uint64; apply Zminus_mod_idemp_l).
  cbv zeta. split.
  - intros Hfit.
    assert (to_uint64 (address + 2 ^ k - 1) = address + 2 ^ k - 1)%Z as ->
      by (unfold to_uint64; apply Z.mod_small; lia).
    rewrite land_alignment_mask by lia.
    set (s := (address + 2 ^ k - 1)%Z).
    pose proof (Z.mod_pos_bound s (2 ^ k) ltac:(lia)) as Hm.
    assert ((s - s mod 2 ^ k) mod 2 ^ k = 0)%Z as Hz.
    { rewrite Zminus_mod_idemp_r, Z.sub_diag. apply Z.mod_0_l. lia. }
    split; [exact Hz |].
    pose proof (Z.div_mod s (2 ^ k)) as Hs.
    pose proof (Z.div_mod address (2 ^ k)) as Hd.
    pose proof (Z.mod_pos_bound address (2 ^ k) ltac:(lia)) as Hma.
    assert (s / 2 ^ k = if (address mod 2 ^ k =? 0)%Z then address / 2 ^ k
                        else address / 2 ^ k + 1)%Z as Hq.
    { destruct (Z.eqb_spec (address mod 2 ^ k) 0).
      - symmetry. apply (Z.div_unique s (2 ^ k) _ (2 ^ k - 1)); unfold s; lia.
      - symmetry. apply (Z.div_unique s (2 ^ k) _ (address mod 2 ^ k - 1));
          unfold s; lia. }
    destruct (Z.eqb_spec (address mod 2 ^ k) 0); split; intros; nia.
  - intros Hwrap.
    assert (to_uint64 (address + 2 ^ k - 1) = address + 2 ^ k - 1 - 2 ^ 64)%Z as ->.
    { unfold to_uint64. symmetry.
      apply (Z.mod_unique _ _ 1); lia. }
    rewrite land_alignment_mask by lia.
    rewrite Z.mod_small by lia. lia.
Qed.

(** * Concrete runs of the utilities *)

Lemma byteswap16_swaps_witness :
  (0 <= 0x1234 < 2 ^ 16)%Z
  /\ (0 <= byteswap16 0x1234 < 2 ^ 16)%Z
  /\ byte_at 0 (byteswap16 0x1234) = byte_at 1 0x1234
  /\ byte_at 1 (byteswap16 0x1234) = byte_at 0 0x1234
  /\ byteswap16 (byteswap16 0x1234) = 0x1234%Z.
Proof.
  refine (conj _ _); [lia | apply (byteswap16_swaps 0x1234); lia].
Defined.

Lemma byteswap32_reverses_witness :
  (0 <= 0x12345678 < 2 ^ 32)%Z
  /\ (0 <= byteswap32 0x12345678 < 2 ^ 32)%Z
  /\ (forall k, (0 <= k <= 3)%Z ->
        byte_at k (byteswap32 0x12345678) = byte_at (3 - k) 0x12345678)
  /\ byteswap32 (byteswap32 0x12345678) = 0x12345678%Z.
Proof.
  refine (conj _ _); [lia | apply (byteswap32_reverses 0x12345678); lia].
Defined.

Lemma crc32_feed_is_bitwise_crc_witness :
  (0 <= CRC32.initial < 2 ^ 32)%Z
  /\ CRC32.feed CRC32.initial [x31; x32; x33] = crc32_bitwise CRC32.initial [x31; x32; x33]
  /\ (0 <= CRC32.feed CRC32.initial [x31; x32; x33] < 2 ^ 32)%Z.
Proof.
  refine (conj _ _); [unfold CRC32.initial; lia |].
  apply (crc32_feed_is_bitwise_crc CRC32.initial [x31; x32; x33]).
  unfold CRC32.initial; lia.
Defined.

Lemma integer_range_beg_le_end_witness :
  (0 <= 32)%Z
  /\ integer_range.well_formed 32 integer_range.default
  /\ (forall b e, integer_range.value 32 b -> integer_range.value 32 e ->
        integer_range.well_formed 32 (integer_range.ctor b e))
  /\ (forall r off, integer_range.well_formed 32 (integer_range.offset 32 r off))
  /\ (forall r off count, integer_range.well_formed 32 r ->
        integer_range.well_formed 32 (integer_range.subrange 32 r off count)).
Proof.
  refine (conj _ _); [lia | apply (integer_range_beg_le_end 32); lia].
Defined.

Lemma integer_range_at_witness :
  let r := integer_range.mk 10 20 in
  (0 <= 32)%Z /\ integer_range.well_formed 32 r /\ integer_range.value 32 10
  /\ (integer_range.m_beg r <= integer_range.at_ 32 r 10 <= integer_range.m_end r)%Z
  /\ ((10 <= integer_range.size 32 r)%Z ->
        integer_range.at_ 32 r 10 = (integer_range.m_beg r + 10)%Z)
  /\ ((integer_range.size 32 r <= 10)%Z ->
        integer_range.at_ 32 r 10 = integer_range.m_end r).
Proof.
  assert (integer_range.well_formed 32 (integer_range.mk 10 20)) as Hr
    by (unfold integer_range.well_formed, integer_range.value; simpl; lia).
  assert (integer_range.value 32 10) as Hv by (unfold integer_range.value; lia).
  refine (conj _ (conj Hr (conj Hv _))); [lia |].
  apply (integer_range_at 32); [lia | exact Hr | exact Hv].
Defined.

Lemma integer_range_subrange_witness :
  let r := integer_range.mk 10 20 in
  (0 <= 32)%Z /\ integer_range.well_formed 32 r
  /\ integer_range.value 32 2 /\ integer_range.value 32 5
  /\ ((2 <= integer_range.size 32 r)%Z ->
        integer_range.subrange 32 r 2 (integer_range.minus_one 32)
        = integer_range.mk (integer_range.m_beg r + 2) (integer_range.m_end r))
  /\ (5%Z <> integer_range.minus_one 32 -> (2 + 5 <= integer_range.size 32 r)%Z ->
        integer_range.subrange 32 r 2 5
        = integer_range.mk (integer_range.m_beg r + 2) (integer_range.m_beg r + 2 + 5)
        /\ integer_range.size 32 (integer_range.subrange 32 r 2 5) = 5%Z
        /\ integer_range.is_valid_subrange 32 r 2 5 = true)
  /\ (5%Z <> integer_range.minus_one 32 -> (integer_range.size 32 r < 2 + 5)%Z ->
        (integer_range.m_beg r + 2 + 5 < 2 ^ 32)%Z ->
        integer_range.subrange 32 r 2 5 = integer_range.default
        /\ integer_range.is_valid_subrange 32 r 2 5 = false).
Proof.
  assert (integer_range.well_formed 32 (integer_range.mk 10 20)) as Hr
    by (unfold integer_range.well_formed, integer_range.value; simpl; lia).
  assert (integer_range.value 32 2) as H2 by (unfold integer_range.value; lia).
  assert (integer_range.value 32 5) as H5 by (unfold integer_range.value; lia).
  refine (conj _ (conj Hr (conj H2 (conj H5 _)))); [lia |].
  apply (integer_range_subrange 32); [lia | exact Hr | exact H2 | exact H5].
Defined.

Lemma integer_range_subrange_wraps_witness :
  let r := integer_range.mk 10 20 in
  let count := (2 ^ 32 - 3)%Z in
  (0 <= 32)%Z /\ integer_range.well_formed 32 r
  /\ integer_range.value 32 2 /\ integer_range.value 32 count
  /\ count <> integer_range.minus_one 32
  /\ (2 <= integer_range.size 32 r)%Z
  /\ (2 ^ 32 <= integer_range.m_beg r + 2 + count)%Z
  /\ integer_range.subrange 32 r 2 count
     = integer_range.mk (integer_range.m_beg r + 2) (integer_range.m_beg r + 2)
  /\ integer_range.is_valid_subrange 32 r 2 count = true.
Proof.
  assert (integer_range.well_formed 32 (integer_range.mk 10 20)) as Hr
    by (unfold integer_range.well_formed, integer_range.value; simpl; lia).
  assert (integer_range.value 32 2) as H2 by (unfold integer_range.value; lia).
  assert (integer_range.value 32 (2 ^ 32 - 3)) as Hc by (unfold integer_range.value; lia).
  assert ((2 ^ 32 - 3)%Z <> integer_range.minus_one 32) as Hne by (vm_compute; discriminate).
  assert (2 <= integer_range.size 32 (integer_range.mk 10 20))%Z as Hs
    by (vm_compute; discriminate).
  assert (2 ^ 32 <= 10 + 2 + (2 ^ 32 - 3))%Z as Hw by lia.
  refine (conj _ (conj Hr (conj H2 (conj Hc (conj Hne (conj Hs (conj Hw _))))))); [lia |].
  apply (integer_range_subrange_wraps 32); [lia | exact Hr | exact H2 | exact Hc
    | exact Hne | exact Hs | exact Hw].
Defined.

Lemma integer_range_subrange_compose_witness :
  let r := integer_range.mk 10 30 in
  (0 <= 32)%Z /\ integer_range.well_formed 32 r
  /\ (4 + 10 <= integer_range.size 32 r)%Z /\ (3 + 5 <= 10)%Z
  /\ integer_range.subrange 32 (integer_range.subrange 32 r 4 10) 3 5
     = integer_range.subrange 32 r (4 + 3) 5.
Proof.
  assert (integer_range.well_formed 32 (integer_range.mk 10 30)) as Hr
    by (unfold integer_range.well_formed, integer_range.value; simpl; lia).
  assert (4 + 10 <= integer_range.size 32 (integer_range.mk 10 30))%Z as Hs
    by (vm_compute; discriminate).
  refine (conj _ (conj Hr (conj Hs (conj _ _)))); [lia | lia |].
  apply (integer_range_subrange_compose 32);
    try exact Hr; try exact Hs; try (unfold integer_range.value; lia);
    try (vm_compute; discriminate); lia.
Defined.

Lemma insert_sorted_sorted_witness :
  let vec := [1; 3; 3; 5]%Z in
  StronglySorted (not_gt Z.lt) vec
  /\ let '(it, vec') := insert_sorted Z.lt vec 3%Z in
     StronglySorted (not_gt Z.lt) vec'
     /\ vec' ≡ₚ 3%Z :: vec
     /\ vec' !! it = Some 3%Z
     /\ (forall x, x ∈ take it vec' -> (x < 3)%Z)
     /\ (forall x, x ∈ drop (S it) vec' -> ~ (x < 3)%Z).
Proof.
  assert (StronglySorted (not_gt Z.lt) [1; 3; 3; 5]%Z) as Hs
    by (repeat constructor; unfold not_gt; lia).
  pose proof (Z.lt_trichotomy : Trichotomy Z.lt) as Htri.
  refine (conj Hs _).
  exact (insert_sorted_sorted Z.lt [1; 3; 3; 5]%Z 3%Z Hs).
Defined.

Lemma insert_sorted_nodupe_strict_witness :
  let vec := [1; 3; 5]%Z in
  StronglySorted Z.lt vec
  /\ let '(it, inserted, vec') := insert_sorted_nodupe Z.lt vec 4%Z in
     (inserted = false <-> 4%Z ∈ vec)
     /\ (inserted = false -> vec' = vec)
     /\ (inserted = true -> vec' ≡ₚ 4%Z :: vec)
     /\ StronglySorted Z.lt vec'
     /\ vec' !! it = Some 4%Z.
Proof.
  assert (StronglySorted Z.lt [1; 3; 5]%Z) as Hs by (repeat constructor; lia).
  pose proof (Z.lt_trichotomy : Trichotomy Z.lt) as Htri.
  refine (conj Hs _).
  exact (insert_sorted_nodupe_strict Z.lt [1; 3; 5]%Z 4%Z Hs).
Defined.


Lemma insert_sorted_nodupe_from_misplaces_witness :
  let vec := [1; 3; 5]%Z in
  StronglySorted Z.lt vec /\ 2 <= length vec /\ 3%Z ∈ take 2 vec /\ (2 < 3)%Z
  /\ insert_sorted_nodupe_from Z.lt vec 2 2%Z
     = (2, true, take 2 vec ++ 2%Z :: drop 2 vec)
  /\ ~ StronglySorted (not_gt Z.lt) (take 2 vec ++ 2%Z :: drop 2 vec).
Proof.
  assert (StronglySorted Z.lt [1; 3; 5]%Z) as Hs by (repeat constructor; lia).
  assert (3%Z ∈ take 2 [1; 3; 5]%Z) as Hin by (simpl; right; left).
  refine (conj Hs (conj _ (conj Hin (conj _ _)))); [simpl; lia | lia |].
  apply (insert_sorted_nodupe_from_misplaces Z.lt [1; 3; 5]%Z 2 2%Z 3%Z Hs);
    [simpl; lia | exact Hin | lia].
Defined.

Lemma cmp_less_is_less_witness :
  let i32 := inttype.mk true 32 in
  let u32 := inttype.mk false 32 in
  inttype.fixed_width i32 /\ inttype.fixed_width u32
  /\ inttype.in_range i32 (-1) /\ inttype.in_range u32 1
  /\ cmp_less i32 u32 (-1) 1 = (-1 <? 1)%Z.
Proof.
  assert (inttype.fixed_width (inttype.mk true 32)) as H1 by (right; right; left; reflexivity).
  assert (inttype.fixed_width (inttype.mk false 32)) as H2 by (right; right; left; reflexivity).
  assert (inttype.in_range (inttype.mk true 32) (-1)) as H3
    by (unfold inttype.in_range, inttype.lowest, inttype.max; simpl; lia).
  assert (inttype.in_range (inttype.mk false 32) 1) as H4
    by (unfold inttype.in_range, inttype.lowest, inttype.max; simpl; lia).
  refine (conj H1 (conj H2 (conj H3 (conj H4 _)))).
  exact (cmp_less_is_less _ _ _ _ H1 H2 H3 H4).
Defined.

Lemma integral_cast_check_sides_witness :
  let u8 := inttype.mk false 8 in
  let i32 := inttype.mk true 32 in
  inttype.fixed_width u8 /\ inttype.fixed_width i32 /\ inttype.in_range i32 300
  /\ (integral_cast_check u8 i32 300 = negative_overflow <-> (300 < inttype.lowest u8)%Z)
  /\ (integral_cast_check u8 i32 300 = positive_overflow <-> (inttype.max u8 < 300)%Z)
  /\ (integral_cast_check u8 i32 300 = lossless <-> inttype.in_range u8 300).
Proof.
  assert (inttype.fixed_width (inttype.mk false 8)) as H1 by (left; reflexivity).
  assert (inttype.fixed_width (inttype.mk true 32)) as H2 by (right; right; left; reflexivity).
  assert (inttype.in_range (inttype.mk true 32) 300) as H3
    by (unfold inttype.in_range, inttype.lowest, inttype.max; simpl; lia).
  refine (conj H1 (conj H2 (conj H3 _))).
  exact (integral_cast_check_sides _ _ _ H1 H2 H3).
Defined.

Lemma integral_cast_ok_iff_lossless_witness :
  let i16 := inttype.mk true 16 in
  let i64 := inttype.mk true 64 in
  inttype.fixed_width i16 /\ inttype.fixed_width i64 /\ inttype.in_range i64 (-40000)
  /\ let '(res, ok) := integral_cast i16 i64 (-40000) in
     (ok = true <-> inttype.in_range i16 (-40000))
     /\ (ok = true -> res = (-40000)%Z)
     /\ inttype.in_range i16 res
     /\ (ok = true <-> integral_cast_check i16 i64 (-40000) = lossless).
Proof.
  assert (inttype.fixed_width (inttype.mk true 16)) as H1 by (right; left; reflexivity).
  assert (inttype.fixed_width (inttype.mk true 64)) as H2 by (right; right; right; reflexivity).
  assert (inttype.in_range (inttype.mk true 64) (-40000)) as H3
    by (unfold inttype.in_range, inttype.lowest, inttype.max; simpl; lia).
  refine (conj H1 (conj H2 (conj H3 _))).
  exact (integral_cast_ok_iff_lossless _ _ _ H1 H2 H3).
Defined.


Lemma align_down_rounds_down_witness :
  (0 <= 4 < 64)%Z /\ (0 <= 0x1237 < 2 ^ 64)%Z
  /\ let r := align_down 0x1237 (2 ^ 4) in
     r = (0x1237 - 0x1237 mod 2 ^ 4)%Z
     /\ (r mod 2 ^ 4 = 0)%Z
     /\ (r <= 0x1237 < r + 2 ^ 4)%Z
     /\ align_down r (2 ^ 4) = r.
Proof.
  refine (conj _ (conj _ _)); [lia | lia |].
  apply (align_down_rounds_down 0x1237 4); lia.
Defined.

Lemma align_up_rounds_up_witness :
  (0 <= 4 < 64)%Z /\ (0 <= 0x1237 < 2 ^ 64)%Z
  /\ let r := align_up 0x1237 (2 ^ 4) in
     ((0x1237 + 2 ^ 4 - 1 < 2 ^ 64)%Z ->
        (r mod 2 ^ 4 = 0)%Z /\ (0x1237 <= r < 0x1237 + 2 ^ 4)%Z
        /\ ((0x1237 mod 2 ^ 4 = 0)%Z -> r = 0x1237%Z))
     /\ ((2 ^ 64 <= 0x1237 + 2 ^ 4 - 1)%Z -> r = 0%Z).
Proof.
  refine (conj _ (conj _ _)); [lia | lia |].
  apply (align_up_rounds_up 0x1237 4); lia.
Defined.

(** The wrap at the top of the address space. *)
Example align_up_wraps : align_up (2 ^ 64 - 3) 16 = 0%Z.
Proof. vm_compute. reflexivity. Qed.

(** * [ror], [rol] *)

Section Rotations.

Variable nbits : Z.
Hypothesis nbits_width : nbits = 8%Z \/ nbits = 16%Z \/ nbits = 32%Z \/ nbits = 64%Z.

Lemma nbits_pos : (8 <= nbits)%Z.
Proof. lia. Qed.

Lemma add_while_negative_spec (fuel : nat) (n : Z) :
  (- n <= Z.of_nat fuel)%Z ->
  let r := add_while_negative fuel n nbits in
  (0 <= r)%Z /\ (r mod nbits = n mod nbits)%Z.
Proof.
  pose proof nbits_pos as Hp.
  revert n. induction fuel as [| fuel IH]; intros n Hn; simpl.
  - split; [lia | done].
  - destruct (Z.ltb_spec n 0); [| split; [lia | done]].
    destruct (IH (n + nbits)%Z) as [Hr Hm]; [lia |].
    split; [exact Hr |]. rewrite Hm.
    rewrite <- (Z.mul_1_l nbits) at 1. apply Z.mod_add. lia.
Qed.

Lemma rotate_amount_mod (n : Z) : rotate_amount nbits n = (n mod nbits)%Z.
Proof.
  pose proof nbits_pos as Hp. unfold rotate_amount.
  destruct (add_while_negative_spec (Z.to_nat (- n)) n) as [Hr Hm]; [lia |].
  rewrite Z.rem_mod_nonneg by lia. exact Hm.
Qed.

(** A shift by the promoted width happens for the 32- and 64-bit types
    when the normalised amount is [0]. *)
Lemma shift_undefined_iff (k : Z) :
  (0 <= k < nbits)%Z ->
  (promoted_bits nbits <=? nbits - k)%Z = true <-> (k = 0 /\ 32 <= nbits)%Z.
Proof.
  intros Hk. unfold promoted_bits. rewrite Z.leb_le.
  destruct (Z.ltb_spec nbits 32); lia.
Qed.

Lemma high_bits_zero (x i : Z) :
  (0 <= x < 2 ^ nbits)%Z -> (nbits <= i)%Z -> Z.testbit x i = false.
Proof.
  pose proof nbits_pos as Hp. intros Hx Hi.
  rewrite <- (Z.mod_small x (2 ^ nbits)) by lia.
  apply Z.mod_pow2_bits_high. lia.
Qed.

Lemma ror_bits (x k i : Z) :
  (0 <= x < 2 ^ nbits)%Z -> (0 <= k < nbits)%Z -> (0 <= i < nbits)%Z ->
  Z.testbit ((Z.lor (Z.shiftr x k) (Z.shiftl x (nbits - k))) mod 2 ^ nbits) i
  = Z.testbit x ((i + k) mod nbits).
Proof.
  intros Hx Hk Hi.
  rewrite Z.mod_pow2_bits_low, Z.lor_spec, Z.shiftr_spec, Z.shiftl_spec by lia.
  destruct (Z.lt_ge_cases (i + k) nbits).
  - rewrite (Z.testbit_neg_r x (i - (nbits - k))) by lia.
    rewrite orb_false_r, Z.mod_small by lia. reflexivity.
  - rewrite (high_bits_zero x (i + k)) by lia. simpl. f_equal.
    apply (Z.mod_unique _ _ 1); lia.
Qed.

Lemma rol_bits (x k i : Z) :
  (0 <= x < 2 ^ nbits)%Z -> (0 <= k < nbits)%Z -> (0 <= i < nbits)%Z ->
  Z.testbit ((Z.lor (Z.shiftl x k) (Z.shiftr x (nbits - k))) mod 2 ^ nbits) i
  = Z.testbit x ((i - k) mod nbits).
Proof.
  intros Hx Hk Hi.
  rewrite Z.mod_pow2_bits_low, Z.lor_spec, Z.shiftr_spec, Z.shiftl_spec by lia.
  destruct (Z.lt_ge_cases i k).
  - rewrite (Z.testbit_neg_r x (i - k)) by lia. simpl. f_equal.
    apply (Z.mod_unique _ _ (-1)); lia.
  - destruct (Z.eq_dec k 0) as [-> | Hk0].
    + rewrite (high_bits_zero x (i + (nbits - 0))) by lia.
      rewrite orb_false_r, Z.mod_small by lia. reflexivity.
    + rewrite (high_bits_zero x (i + (nbits - k))) by lia.
      rewrite orb_false_r, Z.mod_small by lia. reflexivity.
Qed.

(** X28: [ror] and [rol] rotate by [n] modulo the width, in either
    direction for a negative [n]: bit [i] of [ror(x, n)] is bit
    [(i + n) mod nbits] of [x] and bit [i] of [rol(x, n)] is bit
    [(i - n) mod nbits].  The one case without a defined result is a
    32- or 64-bit [T] with a non-zero [n] that is a multiple of the
    width, where the second shift is by the full width. *)
Theorem rotations_rotate (x n : Z) :
  (0 <= x < 2 ^ nbits)%Z ->
  ((ror nbits x n = None <-> n <> 0%Z /\ (n mod nbits = 0)%Z /\ (32 <= nbits)%Z)
   /\ (rol nbits x n = None <-> n <> 0%Z /\ (n mod nbits = 0)%Z /\ (32 <= nbits)%Z))
  /\ (forall r, ror nbits x n = Some r ->
        (0 <= r < 2 ^ nbits)%Z
        /\ forall i, (0 <= i < nbits)%Z -> Z.testbit r i = Z.testbit x ((i + n) mod nbits))
  /\ (forall r, rol nbits x n = Some r ->
        (0 <= r < 2 ^ nbits)%Z
        /\ forall i, (0 <= i < nbits)%Z -> Z.testbit r i = Z.testbit x ((i - n) mod nbits)).
Proof.
  pose proof nbits_pos as Hp. intros Hx.
  pose proof (Z.mod_pos_bound n nbits ltac:(lia)) as Hk.
  pose proof (shift_undefined_iff (n mod nbits) Hk) as Hu.
  unfold ror, rol. rewrite !rotate_amount_mod.
  destruct (Z.eqb_spec n 0) as [-> | Hn].
  - split; [split; split; (discriminate || lia) |].
    split; intros r [= <-]; (split; [exact Hx |]); intros i Hi; f_equal;
      rewrite ?Z.add_0_r, ?Z.sub_0_r, Z.mod_small by lia; reflexivity.
  - destruct (promoted_bits nbits <=? nbits - n mod nbits)%Z eqn:Hsh.
    + pose proof (proj1 Hu eq_refl) as Hz.
      split; [split; split; (done || lia) |].
      split; intros r [=].
    + assert (~ (n mod nbits = 0 /\ 32 <= nbits)%Z) as Hdef
        by (intros H; apply Hu in H; discriminate H).
      split; [split; split; (discriminate || lia) |].
      split; intros r [= <-]; (split; [apply Z.mod_pos_bound; lia |]); intros i Hi.
      * rewrite ror_bits by lia. f_equal. apply Z.add_mod_idemp_r. lia.
      * rewrite rol_bits by lia. f_equal. apply Zminus_mod_idemp_r.
Qed.

(** X29: [rol] undoes [ror]: rotating right by [n] and then left by [n]
    gives the value back, whenever both calls have a defined result. *)
Theorem rol_undoes_ror (x n r r' : Z) :
  (0 <= x < 2 ^ nbits)%Z ->
  ror nbits x n = Some r ->
  rol nbits r n = Some r' ->
  r' = x.
Proof.
  pose proof nbits_pos as Hp. intros Hx Hr Hr'.
  pose proof (Z.mod_pos_bound n nbits ltac:(lia)) as Hk.
  unfold ror, rol in *. rewrite !rotate_amount_mod in *.
  destruct (Z.eqb_spec n 0); [congruence |].
  destruct (promoted_bits nbits <=? nbits - n mod nbits)%Z; [discriminate |].
  injection Hr as <-. injection Hr' as <-.
  set (r := (Z.lor (Z.shiftr x (n mod nbits)) (Z.shiftl x (nbits - n mod nbits))
             mod 2 ^ nbits)%Z).
  assert (0 <= r < 2 ^ nbits)%Z as Hrr by (apply Z.mod_pos_bound; lia).
  apply (bits_eq_below nbits); [lia | apply Z.mod_pos_bound; lia | exact Hx |].
  intros i Hi. rewrite rol_bits by lia.
  unfold r. rewrite ror_bits by (try apply Z.mod_pos_bound; lia).
  f_equal. rewrite Z.add_mod_idemp_l by lia.
  replace (i - n mod nbits + n mod nbits)%Z with i by lia.
  apply Z.mod_small. lia.
Qed.

End Rotations.

Lemma rotations_rotate_witness :
  (32 = 8 \/ 32 = 16 \/ 32 = 32 \/ 32 = 64)%Z
  /\ (0 <= 0x80000001 < 2 ^ 32)%Z
  /\ ((ror 32 0x80000001 (-4) = None
         <-> (-4)%Z <> 0%Z /\ ((-4) mod 32 = 0)%Z /\ (32 <= 32)%Z)
      /\ (rol 32 0x80000001 (-4) = None
         <-> (-4)%Z <> 0%Z /\ ((-4) mod 32 = 0)%Z /\ (32 <= 32)%Z))
  /\ (forall r, ror 32 0x80000001 (-4) = Some r ->
        (0 <= r < 2 ^ 32)%Z
        /\ forall i, (0 <= i < 32)%Z ->
             Z.testbit r i = Z.testbit 0x80000001 ((i + -4) mod 32))
  /\ (forall r, rol 32 0x80000001 (-4) = Some r ->
        (0 <= r < 2 ^ 32)%Z
        /\ forall i, (0 <= i < 32)%Z ->
             Z.testbit r i = Z.testbit 0x80000001 ((i - -4) mod 32)).
Proof.
  refine (conj _ (conj _ _)); [lia | lia |].
  apply (rotations_rotate 32); lia.
Defined.

Lemma rol_undoes_ror_witness :
  (16 = 8 \/ 16 = 16 \/ 16 = 32 \/ 16 = 64)%Z
  /\ (0 <= 0x1234 < 2 ^ 16)%Z
  /\ ror 16 0x1234 4 = Some 0x4123%Z
  /\ rol 16 0x4123 4 = Some 0x1234%Z
  /\ 0x1234%Z = 0x1234%Z.
Proof.
  refine (conj _ (conj _ (conj eq_refl (conj eq_refl _)))); [lia | lia |].
  apply (rol_undoes_ror 16) with (n := 4%Z) (r := 0x4123%Z);
    [lia | lia | reflexivity | reflexivity].
Defined.

(** A 16-bit value rotated by a multiple of 16 is unchanged; a 32-bit
    value rotated by 32 has no defined result. *)
Example rotate_by_width :
  ror 16 0x1234 16 = Some 0x1234%Z /\ ror 32 0x1234 32 = None.
Proof. split; reflexivity. Qed.
